(** * ConnectionsTree::Model — a shallow embedding of
      src/modules/connections-tree/model.cpp

    The model is the adapter between the tree of [TreeItem]s (servers,
    databases, namespaces, keys) and a Qt item view.  The C++ object graph is
    embedded as an explicit store of live objects addressed by pointer; the
    member functions of [Model] become functions on a record holding that
    store together with the members [m_treeItems], [m_rawPointers] and
    [m_expanded] and the log of what the model has emitted.

    The [int]s of the source are rows, columns and counts.  They are
    embedded in [Z]: the only arithmetic on them is [childCount() - 1] and
    the increment of a loop counter below a count, and neither leaves the
    range of [int]. *)

From stdpp Require Import base option list gmap strings.
From Stdlib Require Import ZArith Lia.

Local Open Scope Z_scope.

Module ConnectionsTree.

(** ** Values *)

(** The part of [QVariant] the model produces: the null variant
    [QVariant()], strings ([QString], also used for the icon url) and byte
    arrays ([QByteArray], the type of [TreeItem::getName]). *)
Inductive QVariant :=
| QVariant_null
| QVariant_string (s : string)
| QVariant_bytes (s : string).

#[global] Instance QVariant_eq_dec : EqDecision QVariant.
Proof. solve_decision. Defined.

(** [QVariant::toString] on the variants above. *)
Definition toString (v : QVariant) : string :=
  match v with
  | QVariant_null => ""
  | QVariant_string s => s
  | QVariant_bytes s => s
  end.

(** The roles [Model::data] switches on.  [model.h] (not among the sources)
    declares [itemName], [itemType] and [itemOriginalName] as pairwise
    distinct [int] constants above [Qt::UserRole]; any other [int] is
    [OtherRole]. *)
Inductive Role :=
| itemName
| DecorationRole
| itemType
| itemOriginalName
| OtherRole (r : Z).

(** [Qt::ItemFlags] is a bit mask. *)
Definition NoItemFlags : Z := 0.
Definition ItemIsSelectable : Z := 1.
Definition ItemIsEnabled : Z := 32.

(** ** Tree items *)

(** Modelled from the spec: [TreeItem] (items/treeitem.h is not among the
    sources).  A node has a display name, an original name, a type tag, an
    icon, an enabled flag, a string-keyed metadata mapping, an ordered
    sequence of children, a non-owning reference to its parent (absent for a
    root), the row last given to it, and a load state.  Objects are named by
    their address, a [positive]; a [QWeakPointer] is such an address or
    null, and it is expired when the address is no longer in the store. *)
Record TreeItem := mkTreeItem {
  getDisplayName : string;
  getName : string;
  getType : string;
  getIconUrl : string;
  isEnabled : bool;
  item_children : list positive;
  item_parent : option positive;
  item_row : Z;
  item_canFetchMore : bool;
  item_metadata : gmap string QVariant
}.

Definition childCount (it : TreeItem) : Z := Z.of_nat (length (item_children it)).

(** [TreeItem::child(row)]: the child at [row], null when there is none. *)
Definition child (it : TreeItem) (row : Z) : option positive :=
  if row <? 0 then None else item_children it !! Z.to_nat row.

Definition setRow (r : Z) (it : TreeItem) : TreeItem :=
  mkTreeItem (getDisplayName it) (getName it) (getType it) (getIconUrl it)
    (isEnabled it) (item_children it) (item_parent it) r
    (item_canFetchMore it) (item_metadata it).

Definition item_setMetadata (key : string) (value : QVariant) (it : TreeItem) : TreeItem :=
  mkTreeItem (getDisplayName it) (getName it) (getType it) (getIconUrl it)
    (isEnabled it) (item_children it) (item_parent it) (item_row it)
    (item_canFetchMore it) (<[key := value]> (item_metadata it)).

Definition metadata (it : TreeItem) (key : string) : QVariant :=
  default QVariant_null (item_metadata it !! key).

(** ** Model indexes *)

(** [QModelIndex]: row, column, internal pointer and the model it belongs
    to ([idx_model] is false for the null model of a default-constructed
    index). *)
Record QModelIndex := mkIndex {
  idx_row : Z;
  idx_column : Z;
  internalPointer : option positive;
  idx_model : bool
}.

#[global] Instance QModelIndex_eq_dec : EqDecision QModelIndex.
Proof. solve_decision. Defined.

(** [QModelIndex()] *)
Definition noIndex : QModelIndex := mkIndex (-1) (-1) None false.

Definition isValid (i : QModelIndex) : bool :=
  (0 <=? idx_row i) && (0 <=? idx_column i) && idx_model i.

Definition createIndex (row column : Z) (p : positive) : QModelIndex :=
  mkIndex row column (Some p) true.

(** ** What the model emits *)

Inductive Signal :=
| beginInsertRows (parent : QModelIndex) (first last : Z)
| endInsertRows
| beginRemoveRows (parent : QModelIndex) (first last : Z)
| endRemoveRows
| dataChanged (topLeft bottomRight : QModelIndex)
| expand (i : QModelIndex).

#[global] Instance Signal_eq_dec : EqDecision Signal.
Proof. solve_decision. Defined.

(** ** The model *)

Record Model := mkModel {
  heap : gmap positive TreeItem;           (* the live TreeItem objects *)
  m_treeItems : list positive;             (* QList<QSharedPointer<ServerItem>> *)
  m_rawPointers : gmap positive positive;  (* QHash<TreeItem*, QWeakPointer<TreeItem>> *)
  m_expanded : gset string;                (* QSet<QByteArray> *)
  emitted : list Signal                    (* in the order of emission *)
}.

Definition emit (s : Signal) (m : Model) : Model :=
  mkModel (heap m) (m_treeItems m) (m_rawPointers m) (m_expanded m) (emitted m ++ [s]).

Definition set_heap (h : gmap positive TreeItem) (m : Model) : Model :=
  mkModel h (m_treeItems m) (m_rawPointers m) (m_expanded m) (emitted m).

Definition set_treeItems (l : list positive) (m : Model) : Model :=
  mkModel (heap m) l (m_rawPointers m) (m_expanded m) (emitted m).

Definition set_expanded (e : gset string) (m : Model) : Model :=
  mkModel (heap m) (m_treeItems m) (m_rawPointers m) e (emitted m).

(** [m_rawPointers->insert(key, weak)] *)
Definition rawPointers_insert (key weak : positive) (m : Model) : Model :=
  mkModel (heap m) (m_treeItems m) (<[key := weak]> (m_rawPointers m))
    (m_expanded m) (emitted m).

(** [QWeakPointer::toStrongRef]: the object, when it is still alive. *)
Definition toStrongRef (w : positive) (m : Model) : option (positive * TreeItem) :=
  match heap m !! w with
  | Some it => Some (w, it)
  | None => None
  end.

(** Modelled from the spec: [Model::getItemFromIndex] is defined in model.h,
    which is not among the sources.  The registry maps the raw node identity
    carried by an index to a weak handle; resolution gives the node, or
    nothing for an invalid index, an identity that was never registered, or
    a node that has been destroyed. *)
Definition getItemFromIndex (index : QModelIndex) (m : Model)
  : option (positive * TreeItem) :=
  if isValid index then
    match internalPointer index with
    | Some raw =>
        match m_rawPointers m !! raw with
        | Some weak => toStrongRef weak m
        | None => None
        end
    | None => None
    end
  else None.

(** [Model::data] *)
Definition data (index : QModelIndex) (role : Role) (m : Model) : QVariant :=
  match getItemFromIndex index m with
  | None => QVariant_null
  | Some (_, item) =>
      match role with
      | itemName => QVariant_string (getDisplayName item)
      | DecorationRole => QVariant_string (getIconUrl item)
      | itemType => QVariant_string (getType item)
      | itemOriginalName => QVariant_bytes (getName item)
      | OtherRole _ => QVariant_null
      end
  end.

(** [Model::flags] *)
Definition flags (index : QModelIndex) (m : Model) : Z :=
  match getItemFromIndex index m with
  | None => NoItemFlags
  | Some (_, item) =>
      let result := ItemIsSelectable in
      if isEnabled item then Z.lor result ItemIsEnabled else result
  end.

(** [Model::rowCount] *)
Definition rowCount (parent : QModelIndex) (m : Model) : Z :=
  match getItemFromIndex parent m with
  | None => Z.of_nat (length (m_treeItems m))
  | Some (_, parentItem) =>
      if 0 <? idx_column parent then 0 else childCount parentItem
  end.

(** Modelled from the spec: [Model::columnCount] is defined in model.h;
    the column count is fixed at 1. *)
Definition columnCount (parent : QModelIndex) (m : Model) : Z := 1.

(** [QAbstractItemModel::hasIndex], which the model inherits. *)
Definition hasIndex (row column : Z) (parent : QModelIndex) (m : Model) : bool :=
  if (row <? 0) || (column <? 0) then false
  else (row <? rowCount parent m) && (column <? columnCount parent m).

(** [Model::index].  The function is [const] but writes through
    [m_rawPointers], so it returns the model as well. *)
Definition index (row column : Z) (parent : QModelIndex) (m : Model)
  : QModelIndex * Model :=
  if negb (hasIndex row column parent m) then (noIndex, m)
  else
    let childItem :=
      match getItemFromIndex parent m with
      | Some (_, parentItem) => child parentItem row
      | None =>
          if row <? Z.of_nat (length (m_treeItems m))
          then m_treeItems m !! Z.to_nat row
          else None
      end in
    match childItem with
    | None => (noIndex, m)
    | Some c => (createIndex row column c, rawPointers_insert c c m)
    end.

(** [Model::parent] *)
Definition parent (index : QModelIndex) (m : Model) : QModelIndex * Model :=
  match getItemFromIndex index m with
  | None => (noIndex, m)
  | Some (_, childItem) =>
      match item_parent childItem with
      | None => (noIndex, m)
      | Some w =>
          match toStrongRef w m with
          | None => (noIndex, m)
          | Some (_, parentItem) =>
              (createIndex (item_row parentItem) 0 w, rawPointers_insert w w m)
          end
      end
  end.

(** [Model::getIndexFromItem]; the argument is a [QWeakPointer]. *)
Definition getIndexFromItem (item : option positive) (m : Model) : QModelIndex :=
  match item with
  | Some w =>
      match toStrongRef w m with
      | Some (_, it) => createIndex (item_row it) 0 w
      | None => noIndex
      end
  | None => noIndex
  end.

(** [Model::canFetchMore] *)
Definition canFetchMore (parent : QModelIndex) (m : Model) : bool :=
  match getItemFromIndex parent m with
  | Some (_, i) => item_canFetchMore i
  | None => false
  end.

(** [Model::getMetadata] *)
Definition getMetadata (index : QModelIndex) (metaKey : string) (m : Model) : QVariant :=
  match getItemFromIndex index m with
  | None => QVariant_null
  | Some (_, item) => metadata item metaKey
  end.

(** [Model::setMetadata] *)
Definition setMetadata (index : QModelIndex) (metaKey : string) (value : QVariant)
  (m : Model) : Model :=
  match getItemFromIndex index m with
  | None => m
  | Some (p, item) => set_heap (<[p := item_setMetadata metaKey value item]> (heap m)) m
  end.

(** [Model::size] *)
Definition size (m : Model) : Z := Z.of_nat (length (m_treeItems m)).

(** ** Delegation to the node *)

(** What a node does when it is asked to fetch its children or handed an
    event belongs to the node kinds (server, database, namespace, key),
    which are outside this file: both are arbitrary transitions of the
    model, indexed by the node they are called on. *)
Section Delegation.

Variable TreeItem_fetchMore : positive → Model → Model.
Variable TreeItem_handleEvent : positive → string → Model → Model.

(** [Model::fetchMore] *)
Definition fetchMore (parent : QModelIndex) (m : Model) : Model :=
  match getItemFromIndex parent m with
  | None => m
  | Some (i, _) => TreeItem_fetchMore i m
  end.

(** [Model::sendEvent]; the [qDebug] line is not part of the state. *)
Definition sendEvent (index : QModelIndex) (event : string) (m : Model) : Model :=
  match getItemFromIndex index m with
  | Some (item, _) => TreeItem_handleEvent item event m
  | None => m
  end.

End Delegation.

(** ** Expanded namespaces *)

(** [Model::setExpanded] *)
Definition setExpanded (index : QModelIndex) (m : Model) : Model :=
  match getItemFromIndex index m with
  | None => m
  | Some (_, item) =>
      if negb (String.eqb (getType item) "namespace") then m
      else set_expanded ({[getName item]} ∪ m_expanded m) m
  end.

(** [Model::setCollapsed] *)
Definition setCollapsed (index : QModelIndex) (m : Model) : Model :=
  match getItemFromIndex index m with
  | None => m
  | Some (_, item) =>
      if negb (String.eqb (getType item) "namespace") then m
      else set_expanded (m_expanded m ∖ {[getName item]}) m
  end.

(** ** Root items *)

(** [Model::addRootItem].  The argument is a [QSharedPointer]: null, or the
    address of a live object.  [setWeakPointer] hands the item a weak
    reference to itself, which has no counterpart in the store. *)
Definition addRootItem (serverItem : option positive) (m : Model) : Model :=
  match serverItem with
  | None => m
  | Some p =>
      let insertIndex := Z.of_nat (length (m_treeItems m)) in
      let m1 := emit (beginInsertRows noIndex insertIndex insertIndex) m in
      let m2 := set_heap (alter (setRow insertIndex) p (heap m1)) m1 in
      let m3 := set_treeItems (m_treeItems m2 ++ [p]) m2 in
      emit endInsertRows m3
  end.

(** [Model::removeRootItem].  [QList::removeAll] drops every occurrence.  A
    non-null [QSharedPointer] keeps its object alive, so the branch for an
    address outside the store is never taken by a caller. *)
Definition removeRootItem (item : option positive) (m : Model) : Model :=
  match item with
  | None => m
  | Some p =>
      match heap m !! p with
      | None => m
      | Some it =>
          let m1 := emit (beginRemoveRows noIndex (item_row it) (item_row it)) m in
          let m2 := set_treeItems (filter (λ q, q ≠ p) (m_treeItems m1)) m1 in
          emit endRemoveRows m2
      end
  end.

(** ** Searching the tree *)

(** [QAbstractItemModel::hasChildren], which the model inherits. *)
Definition hasChildren (parent : QModelIndex) (m : Model) : bool :=
  (0 <? rowCount parent m) && (0 <? columnCount parent m).

(** One pass of the row loop of [match_]: [for (r = from; r < to; ++r)],
    the rows given as a list.  [rec] is the recursive call of [match_] on
    the first child of a row that has children. *)
Fixpoint match_rows (rec : QModelIndex → Model → list QModelIndex * Model)
  (rows : list Z) (column : Z) (p : QModelIndex) (role : Role) (text : string)
  (result : list QModelIndex) (m : Model) : list QModelIndex * Model :=
  match rows with
  | [] => (result, m)
  | r :: rows' =>
      let '(idx, m1) := index r column p m in
      if negb (isValid idx) then match_rows rec rows' column p role text result m1
      else
        let t := toString (data idx role m1) in
        let result1 := if bool_decide (t = text) then result ++ [idx] else result in
        if hasChildren idx m1 then
          let '(start', m2) := index 0 column idx m1 in
          let '(sub, m3) := rec start' m2 in
          match_rows rec rows' column p role text (result1 ++ sub) m3
        else match_rows rec rows' column p role text result1 m1
  end.

(** Modelled from the spec: [match] is inherited from Qt's
    [QAbstractItemModel], whose source is not part of the repository.  It
    is the search the model calls it for: all hits ([hits = -1]), fixed
    string, case sensitive, recursive, no wrap.  The search starts at
    [start], walks the rows from [start]'s row to the last row of [start]'s
    parent, compares the text of [data(idx, role)] with the text looked for,
    and descends into every row that has children, starting from its first
    child.  [fuel] bounds the depth of the descent. *)
Fixpoint match_ (fuel : nat) (start : QModelIndex) (role : Role) (value : QVariant)
  (m : Model) : list QModelIndex * Model :=
  match fuel with
  | O => ([], m)
  | S fuel' =>
      let column := idx_column start in
      let '(p, m1) := parent start m in
      let from := idx_row start in
      let to := rowCount p m1 in
      match_rows (λ s, match_ fuel' s role value)
        (seqZ from (to - from)) column p role (toString value) [] m1
  end.

(** [foreach (QModelIndex i, matches) emit expand(i);] *)
Definition expandAll (matches : list QModelIndex) (m : Model) : Model :=
  foldl (λ m' i, emit (expand i) m') m matches.

(** The body of the loop over the names in [Model::restoreOpenedNamespaces]. *)
Definition expandMatches (fuel : nat) (searchFrom : QModelIndex) (m : Model)
  (item : string) : Model :=
  let '(matches, m') :=
    match_ fuel searchFrom itemOriginalName (QVariant_bytes item) m in
  expandAll matches m'.

(** [Model::restoreOpenedNamespaces].  The names are visited in the order
    in which the set enumerates them. *)
Definition restoreOpenedNamespaces (fuel : nat) (dbIndex : QModelIndex) (m : Model)
  : Model :=
  let expandedCache := m_expanded m in
  let m0 := set_expanded ∅ m in
  let '(searchFrom, m1) := index 0 0 dbIndex m0 in
  foldl (expandMatches fuel searchFrom) m1 (elements expandedCache).

(** ** Signals from the nodes *)

(** [Model::onItemChanged].  [!item] holds for a null or expired weak
    pointer. *)
Definition onItemChanged (item : option positive) (m : Model) : Model :=
  match item with
  | None => m
  | Some w =>
      match toStrongRef w m with
      | None => m
      | Some (_, it) =>
          let index := getIndexFromItem item m in
          if negb (isValid index) || (childCount it =? 0) then m
          else emit (dataChanged index index) m
      end
  end.

(** [QSettings::value(key, true).toBool()] for the persisted settings. *)
Definition reopenNamespacesOnReload (settings : gmap string bool) : bool :=
  default true (settings !! "app/reopenNamespacesOnReload"%string).

(** The two notifications [Model::onItemChildsLoaded] opens with. *)
Definition insertBracket (index : QModelIndex) (treeItem : TreeItem) (m : Model) : Model :=
  emit endInsertRows (emit (beginInsertRows index 0 (childCount treeItem - 1)) m).

(** [Model::onItemChildsLoaded] *)
Definition onItemChildsLoaded (fuel : nat) (settings : gmap string bool)
  (item : option positive) (m : Model) : Model :=
  match item with
  | None => m
  | Some w =>
      match toStrongRef w m with
      | None => m
      | Some (_, treeItem) =>
          let index := getIndexFromItem item m in
          if negb (isValid index) then m
          else
            let m1 := insertBracket index treeItem m in
            if String.eqb (getType treeItem) "database" then
              let m2 := emit (expand index) m1 in
              if reopenNamespacesOnReload settings
              then restoreOpenedNamespaces fuel index m2
              else set_expanded ∅ m2
            else m1
      end
  end.

(** [Model::onItemChildsUnloaded] *)
Definition onItemChildsUnloaded (item : option positive) (m : Model) : Model :=
  match item with
  | None => m
  | Some w =>
      match toStrongRef w m with
      | None => m
      | Some (_, it) =>
          let index := getIndexFromItem item m in
          if negb (isValid index) then m
          else emit endRemoveRows (emit (beginRemoveRows index 0 (childCount it - 1)) m)
      end
  end.

(** ** Specification vocabulary *)

(** What [m'] has emitted beyond what [m] had. *)
Definition emitted_since (m m' : Model) : list Signal :=
  drop (length (emitted m)) (emitted m').

(** The registry maps the address [p] to a weak handle on [p], as [index]
    and [parent] leave it for every node they hand out. *)
Definition registered (p : positive) (m : Model) : Prop :=
  m_rawPointers m !! p = Some p.

(** [m'] is [m] with more of the registry filled in: the store, the root
    list, the expanded names and the emitted signals are the same, and every
    node that was registered still is. *)
Definition ext (m m' : Model) : Prop :=
  heap m' = heap m ∧ m_treeItems m' = m_treeItems m ∧
  m_expanded m' = m_expanded m ∧ emitted m' = emitted m ∧
  ∀ q, registered q m → registered q m'.

(** The row invariant of the root list: the node at position [k] is alive
    and its row is [k]. *)
Definition root_rows_ok (m : Model) : Prop :=
  ∀ (k : nat) (p : positive), m_treeItems m !! k = Some p →
    ∃ it, heap m !! p = Some it ∧ item_row it = Z.of_nat k.

(** The tree below [p] is well formed and at most [n] levels deep: [p] is
    alive with a row that is not negative, and each of its children refers
    back to [p] as its parent and is well formed with [n - 1] levels. *)
Fixpoint wf_subtree (n : nat) (h : gmap positive TreeItem) (p : positive) : bool :=
  match n with
  | O => false
  | S n' =>
      match h !! p with
      | None => false
      | Some it =>
          (0 <=? item_row it) &&
          forallb (λ c,
                     match h !! c with
                     | Some itc => bool_decide (item_parent itc = Some p) && wf_subtree n' h c
                     | None => false
                     end) (item_children it)
      end
  end.

(** [descends h p r q]: in the store [h], node [q] is a proper descendant of
    [p] and sits at row [r] of its own parent's children. *)
Inductive descends (h : gmap positive TreeItem) : positive → Z → positive → Prop :=
| descends_child p it (k : nat) c :
    h !! p = Some it → item_children it !! k = Some c →
    descends h p (Z.of_nat k) c
| descends_deeper p it c r q :
    h !! p = Some it → c ∈ item_children it → descends h c r q →
    descends h p r q.

(** The tree is well formed: the roots are alive and have no parent, and
    the children of a live node are alive and refer back to it. *)
Definition tree_ok (m : Model) : Prop :=
  (∀ p, p ∈ m_treeItems m → ∃ it, heap m !! p = Some it ∧ item_parent it = None) ∧
  (∀ p it c, heap m !! p = Some it → c ∈ item_children it →
     ∃ itc, heap m !! c = Some itc ∧ item_parent itc = Some p).

(** Every signal of the list is an [expand]. *)
Definition all_expand (l : list Signal) : Prop :=
  Forall (λ s, ∃ i, s = expand i) l.

(** [grows m m']: [m'] is [m] with more of the registry filled in and some
    [expand] signals emitted. *)
Definition grows (m m' : Model) : Prop :=
  heap m' = heap m ∧ m_treeItems m' = m_treeItems m ∧
  m_expanded m' = m_expanded m ∧
  (∀ q, registered q m → registered q m') ∧
  ∃ rest, emitted m' = emitted m ++ rest ∧ all_expand rest.

(** The index of [c] at row [r] when its original name is [text]. *)
Definition hit_here (h : gmap positive TreeItem) (text : string) (r : Z) (c : positive)
  : list QModelIndex :=
  match h !! c with
  | Some itc => if bool_decide (getName itc = text) then [createIndex r 0 c] else []
  | None => []
  end.

(** The hits among the nodes [cs], which sit at rows [r], [r + 1], ... of
    their parent: each node itself when it is named [text], followed by the
    hits [sub] finds below it. *)
Fixpoint hits_rows (sub : positive → list QModelIndex) (h : gmap positive TreeItem)
  (text : string) (r : Z) (cs : list positive) : list QModelIndex :=
  match cs with
  | [] => []
  | c :: cs' => hit_here h text r c ++ sub c ++ hits_rows sub h text (r + 1) cs'
  end.

(** The indexes of the proper descendants of [p] named [text], in the order
    of a depth-first walk, down to [fuel] levels below [p]. *)
Fixpoint hits (fuel : nat) (h : gmap positive TreeItem) (text : string) (p : positive)
  : list QModelIndex :=
  match fuel with
  | O => []
  | S fuel' =>
      match h !! p with
      | None => []
      | Some it => hits_rows (hits fuel' h text) h text 0 (item_children it)
      end
  end.

(** A sample tree: two servers, a database under the first, two namespaces
    and a key under the database, a namespace inside the first namespace. *)
Definition sample_item (name type : string) (children : list positive)
  (parent : option positive) (row : Z) : TreeItem :=
  mkTreeItem name name type "" true children parent row false ∅.

Definition sample_heap : gmap positive TreeItem :=
  <[1%positive := sample_item "local" "server" [3%positive] None 0]>
  (<[2%positive := sample_item "remote" "server" [] None 1]>
  (<[3%positive := sample_item "db0" "database" [4; 5; 6]%positive (Some 1%positive) 0]>
  (<[4%positive := sample_item "users" "namespace" [7%positive] (Some 3%positive) 0]>
  (<[5%positive := sample_item "counter" "key" [] (Some 3%positive) 1]>
  (<[6%positive := sample_item "orders" "namespace" [] (Some 3%positive) 2]>
  (<[7%positive := sample_item "users" "namespace" [] (Some 4%positive) 0]> ∅)))))).

(** The sample tree with nothing registered and nothing emitted. *)
Definition sample_model : Model :=
  mkModel sample_heap [1; 2]%positive ∅ ∅ [].

(** A model with no nodes at all. *)
Definition empty_model : Model := mkModel ∅ [] ∅ ∅ [].

(** Persisted settings in which reopening namespaces is switched off. *)
Definition settings_off : gmap string bool :=
  {[ "app/reopenNamespacesOnReload"%string := false ]}.

(** The sample tree after a view has walked to the database: the first
    server and its database are registered. *)
Definition sample_walked : Model :=
  (index 0 0 (index 0 0 noIndex sample_model).1 (index 0 0 noIndex sample_model).2).2.

(** [Model::getItemIcon] *)
Definition getItemIcon (index : QModelIndex) (m : Model) : QVariant :=
  data index DecorationRole m.

(** [Model::getItemType] *)
Definition getItemType (index : QModelIndex) (m : Model) : QVariant :=
  data index itemType m.

(** Every entry of the registry maps an address to a weak handle on the
    object at that very address. *)
Definition reg_ok (m : Model) : Prop :=
  ∀ raw weak, m_rawPointers m !! raw = Some weak → raw = weak.

(** The registry of [m'] is that of [m] with entries added: no address is
    forgotten, and the entries stay as [reg_ok] wants them. *)
Definition reg_grows (m m' : Model) : Prop :=
  dom (m_rawPointers m) ⊆ dom (m_rawPointers m') ∧ (reg_ok m → reg_ok m').

(** The sample tree with the two namespaces named "users" registered. *)
Definition sample_namespaces : Model :=
  mkModel sample_heap [1; 2]%positive
    (<[4%positive := 4%positive]> (<[7%positive := 7%positive]> ∅)) ∅ [].

(** [emit expand(i)] runs the slots connected to the signal before it
    returns.  The three definitions below are [expandAll], [expandMatches]
    and [Model::restoreOpenedNamespaces] with one such slot made explicit:
    [slot i] is what the consumer does to the model when it is asked to
    expand [i].  With a slot that does nothing they are the definitions
    above. *)
Definition expandAll_with (slot : QModelIndex → Model → Model)
  (matches : list QModelIndex) (m : Model) : Model :=
  foldl (λ m' i, slot i (emit (expand i) m')) m matches.

Definition expandMatches_with (slot : QModelIndex → Model → Model) (fuel : nat)
  (searchFrom : QModelIndex) (m : Model) (item : string) : Model :=
  let '(matches, m') :=
    match_ fuel searchFrom itemOriginalName (QVariant_bytes item) m in
  expandAll_with slot matches m'.

Definition restoreOpenedNamespaces_with (slot : QModelIndex → Model → Model)
  (fuel : nat) (dbIndex : QModelIndex) (m : Model) : Model :=
  let expandedCache := m_expanded m in
  let m0 := set_expanded ∅ m in
  let '(searchFrom, m1) := index 0 0 dbIndex m0 in
  foldl (expandMatches_with slot fuel searchFrom) m1 (elements expandedCache).

(** The index is valid and the address it carries is registered. *)
Definition handed_out (i : QModelIndex) (m : Model) : Prop :=
  isValid i = true ∧ ∃ q, internalPointer i = Some q ∧ registered q m.

(** [namespace_below h db name]: in the store [h], a proper descendant of
    [db] has the original name [name] and the type "namespace". *)
Definition namespace_below (h : gmap positive TreeItem) (db : positive) (name : string)
  : Prop :=
  ∃ r q itq, descends h db r q ∧ h !! q = Some itq ∧
    getName itq = name ∧ getType itq = "namespace"%string.

(** ** Basic facts *)

Lemma ext_refl m : ext m m.
Proof. by unfold ext. Qed.

Lemma ext_trans m1 m2 m3 : ext m1 m2 → ext m2 m3 → ext m1 m3.
Proof.
  intros (Hh & Ht & He & Hs & Hr) (Hh' & Ht' & He' & Hs' & Hr').
  unfold ext. rewrite Hh', Ht', He', Hs'. repeat split; auto.
Qed.

Lemma ext_rawPointers_insert c m : ext m (rawPointers_insert c c m).
Proof.
  unfold ext; simpl. repeat split; auto.
  unfold registered; simpl.
  intros q Hq. destruct (decide (c = q)) as [->|Hne].
  - apply lookup_insert_eq.
  - by rewrite lookup_insert_ne.
Qed.

Lemma index_ext row column par m : ext m (index row column par m).2.
Proof.
  unfold index. destruct (negb _); [apply ext_refl|].
  destruct (getItemFromIndex par m) as [[? parentItem]|].
  - destruct (child parentItem row); [apply ext_rawPointers_insert|apply ext_refl].
  - destruct (_ <? _); [|apply ext_refl].
    destruct (_ !! _); [apply ext_rawPointers_insert|apply ext_refl].
Qed.

Lemma parent_ext i m : ext m (parent i m).2.
Proof.
  unfold parent. destruct (getItemFromIndex i m) as [[? childItem]|]; [|apply ext_refl].
  destruct (item_parent childItem) as [w|]; [|apply ext_refl].
  destruct (toStrongRef w m) as [[? ?]|]; [apply ext_rawPointers_insert|apply ext_refl].
Qed.

Lemma emitted_since_emit m s : emitted_since m (emit s m) = [s].
Proof. unfold emitted_since, emit; simpl. by rewrite drop_app_length. Qed.

Lemma emitted_since_app m m' l :
  emitted m' = emitted m ++ l → emitted_since m m' = l.
Proof. unfold emitted_since. intros ->. by rewrite drop_app_length. Qed.

(** ** Indexes that resolve to no node *)

(** The three ways in which an index resolves to no node: it is invalid (or
    carries no pointer), its pointer was never registered, or the registered
    node has been destroyed. *)
Lemma getItemFromIndex_None i m :
  getItemFromIndex i m = None ↔
  isValid i = false ∨ internalPointer i = None ∨
  ∃ raw, internalPointer i = Some raw ∧
    (m_rawPointers m !! raw = None ∨
     ∃ weak, m_rawPointers m !! raw = Some weak ∧ heap m !! weak = None).
Proof.
  unfold getItemFromIndex, toStrongRef.
  destruct (isValid i); [|naive_solver].
  destruct (internalPointer i) as [raw|]; [|naive_solver].
  destruct (m_rawPointers m !! raw) as [weak|] eqn:Hraw; [|naive_solver].
  destruct (heap m !! weak) as [it|] eqn:Hw; [|naive_solver].
  split; [done|]. intros [?|[?|(raw' & [= <-] & [?|(weak' & ? & ?)])]]; congruence.
Qed.

Lemma getItemFromIndex_Some i m p it :
  getItemFromIndex i m = Some (p, it) → heap m !! p = Some it.
Proof.
  unfold getItemFromIndex, toStrongRef. intros H.
  repeat case_match; simplify_eq. done.
Qed.

(** C6. For an index whose node cannot be resolved, [data] and
    [getMetadata] return the null variant, [canFetchMore] returns false,
    and [fetchMore], [setMetadata] and [sendEvent] leave the model as it
    was, whatever the nodes would do when called. *)
Theorem unresolved_index_is_no_node
  (TreeItem_fetchMore : positive → Model → Model)
  (TreeItem_handleEvent : positive → string → Model → Model)
  (i : QModelIndex) (m : Model) :
  getItemFromIndex i m = None →
  (∀ role, data i role m = QVariant_null) ∧
  (∀ key, getMetadata i key m = QVariant_null) ∧
  canFetchMore i m = false ∧
  fetchMore TreeItem_fetchMore i m = m ∧
  (∀ key value, setMetadata i key value m = m) ∧
  (∀ event, sendEvent TreeItem_handleEvent i event m = m).
Proof.
  intros Hnone.
  unfold data, getMetadata, canFetchMore, fetchMore, setMetadata, sendEvent.
  rewrite Hnone. repeat split; done.
Qed.

(** A witness for C6: an index whose pointer was never registered, with
    nodes that would wipe the model if they were reached. *)
Lemma unresolved_index_is_no_node_witness :
  getItemFromIndex (createIndex 0 0 9%positive) sample_model = None ∧
  fetchMore (λ _ _, empty_model) (createIndex 0 0 9%positive) sample_model = sample_model.
Proof.
  split; [reflexivity|].
  apply (unresolved_index_is_no_node (λ _ _, empty_model) (λ _ _ _, empty_model)
           (createIndex 0 0 9%positive) sample_model).
  reflexivity.
Defined.

(** ** Flags *)

(** C7, as stated, fails: the default index resolves to no node and its
    flags are [Qt::NoItemFlags], without the selectable bit. *)
Lemma flags_unresolved_not_selectable :
  Z.land (flags noIndex sample_model) ItemIsSelectable ≠ ItemIsSelectable.
Proof. vm_compute. discriminate. Qed.

Lemma flags_unresolved i m : getItemFromIndex i m = None → flags i m = NoItemFlags.
Proof. unfold flags. by intros ->. Qed.

(** C7, amended. For every index that resolves to a node, the flags
    include the selectable flag, and include the enabled flag if and only if
    the node is enabled; for an index that resolves to no node, the flags
    are [Qt::NoItemFlags]. *)
Theorem flags_resolved (i : QModelIndex) (m : Model) :
  (∀ p item, getItemFromIndex i m = Some (p, item) →
     Z.land (flags i m) ItemIsSelectable = ItemIsSelectable ∧
     (Z.land (flags i m) ItemIsEnabled = ItemIsEnabled ↔ isEnabled item = true)) ∧
  (getItemFromIndex i m = None → flags i m = NoItemFlags).
Proof.
  split; [|apply flags_unresolved].
  intros p item Hsome. unfold flags. rewrite Hsome.
  destruct (isEnabled item); vm_compute; split; try done; split; done.
Qed.

Lemma flags_resolved_witness :
  Z.land (flags (createIndex 0 0 3%positive) sample_walked) ItemIsSelectable
  = ItemIsSelectable.
Proof.
  refine (proj1 (proj1 (flags_resolved (createIndex 0 0 3%positive) sample_walked)
            3%positive
            (sample_item "db0" "database" [4; 5; 6]%positive (Some 1%positive) 0) _)).
  vm_compute. reflexivity.
Defined.

(** ** The changed signal *)

Lemma isValid_getIndexFromItem item m :
  isValid (getIndexFromItem item m) = true ↔
  ∃ w it, item = Some w ∧ heap m !! w = Some it ∧ 0 ≤ item_row it.
Proof.
  unfold getIndexFromItem, toStrongRef. destruct item as [w|].
  - destruct (heap m !! w) as [it|] eqn:Hw.
    + unfold isValid, createIndex; simpl. rewrite andb_true_r, andb_true_r.
      rewrite Z.leb_le. split; [eauto|]. intros (? & ? & [= <-] & ? & ?). by simplify_eq.
    + split; [done|]. intros (? & ? & [= <-] & ? & _). congruence.
  - split; [done|]. by intros (? & ? & ? & _).
Qed.

(** C8. A changed signal makes the model emit [dataChanged] for the
    node's own index, once, exactly when the node resolves to a valid index
    and has at least one child; in every other case nothing is emitted.
    Nothing but the log of emitted signals changes. *)
Theorem onItemChanged_emits_iff_children (item : option positive) (m : Model) :
  let index := getIndexFromItem item m in
  let m' := onItemChanged item m in
  (emitted_since m m' = [dataChanged index index] ↔
     isValid index = true ∧
     ∃ w it, item = Some w ∧ heap m !! w = Some it ∧ 0 < childCount it) ∧
  (m' = emit (dataChanged index index) m ∨ m' = m).
Proof.
  intros index m'. subst index m'. unfold onItemChanged.
  destruct item as [w|]; simpl.
  2:{ split; [|by right]. unfold emitted_since. rewrite drop_all.
      split; [done|]. by intros [_ (? & ? & ? & _)]. }
  unfold toStrongRef. destruct (heap m !! w) as [it|] eqn:Hw.
  2:{ split; [|by right]. unfold emitted_since. rewrite drop_all.
      split; [done|]. intros [_ (? & ? & [= <-] & ? & _)]. congruence. }
  destruct (isValid (createIndex (item_row it) 0 w)) eqn:Hv; simpl.
  2:{ split; [|by right]. unfold emitted_since. rewrite drop_all.
      split; [done|]. by intros [? _]. }
  destruct (childCount it =? 0) eqn:Hc.
  - apply Z.eqb_eq in Hc. split; [|by right]. unfold emitted_since. rewrite drop_all.
    split; [done|]. intros [_ (? & ? & [= <-] & ? & ?)]. simplify_eq. lia.
  - apply Z.eqb_neq in Hc. rewrite emitted_since_emit. split; [|by left].
    split; [|done]. intros _. split; [done|]. exists w, it.
    repeat split; auto. unfold childCount in *. lia.
Qed.

(** ** Root items *)

(** C10. [addRootItem] with a null handle changes nothing.  With a
    non-null handle the node is appended at the row that was the size of the
    root list, that row is assigned to it, no other node is touched, and the
    insertion of that one row is what is emitted. *)
Theorem addRootItem_null_or_append (m : Model) :
  addRootItem None m = m ∧
  ∀ p, let m' := addRootItem (Some p) m in
    m_treeItems m' = m_treeItems m ++ [p] ∧
    size m' = size m + 1 ∧
    m_treeItems m' !! Z.to_nat (size m) = Some p ∧
    heap m' !! p = setRow (size m) <$> heap m !! p ∧
    (∀ q, q ≠ p → heap m' !! q = heap m !! q) ∧
    emitted_since m m' = [beginInsertRows noIndex (size m) (size m); endInsertRows].
Proof.
  split; [done|]. intros p m'. subst m'. unfold addRootItem, size; simpl.
  repeat split.
  - rewrite length_app; simpl. lia.
  - rewrite Nat2Z.id. rewrite lookup_app_r by lia. by rewrite Nat.sub_diag.
  - by rewrite lookup_alter_eq.
  - intros q Hq. by rewrite lookup_alter_ne.
  - apply emitted_since_app. simpl. by rewrite <- app_assoc.
Qed.

Lemma filter_ne_id (p : positive) (l : list positive) :
  p ∉ l → filter (λ q, q ≠ p) l = l.
Proof.
  induction l as [|x l IH]; [done|]. intros Hnotin.
  apply not_elem_of_cons in Hnotin as [Hne Hnotin].
  rewrite filter_cons_True by done. by rewrite IH.
Qed.

(** What [removeRootItem] does with a live node that is not in the root
    list: the list is left as it was, and the removal of the node's stored
    row is announced all the same. *)
Lemma removeRootItem_absent p it m :
  heap m !! p = Some it → p ∉ m_treeItems m →
  removeRootItem (Some p) m =
    emit endRemoveRows (emit (beginRemoveRows noIndex (item_row it) (item_row it)) m).
Proof.
  intros Hp Hnotin. unfold removeRootItem. rewrite Hp. simpl.
  rewrite filter_ne_id by done. by destruct m.
Qed.

(** [removeRootItem] never assigns a row: the store is left as it was. *)
Lemma removeRootItem_heap item m : heap (removeRootItem item m) = heap m.
Proof.
  unfold removeRootItem. destruct item as [p|]; [|done].
  by destruct (heap m !! p).
Qed.

(** When the node is in the root list once, [removeRootItem] makes the list
    one shorter. *)
Lemma removeRootItem_size p it m :
  heap m !! p = Some it → NoDup (m_treeItems m) → p ∈ m_treeItems m →
  size (removeRootItem (Some p) m) = size m - 1.
Proof.
  intros Hp Hnodup Hin. unfold removeRootItem, size. rewrite Hp. simpl.
  induction (m_treeItems m) as [|x l IH]; [by apply elem_of_nil in Hin|].
  apply NoDup_cons in Hnodup as [Hx Hnodup].
  destruct (decide (x = p)) as [->|Hne].
  - rewrite filter_cons_False by (intros H; by apply H).
    rewrite filter_ne_id by done. simpl. lia.
  - rewrite filter_cons_True by done.
    apply elem_of_cons in Hin as [->|Hin]; [done|].
    specialize (IH Hnodup Hin). simpl in *. lia.
Qed.

(** C9, on the code. The root list holds the first server only.
    Removing the second server, which is alive and whose row is 1, leaves
    the list as it was and still announces the removal of row 1. *)
Theorem removeRootItem_absent_still_notifies :
  let m := set_treeItems [1%positive] sample_model in
  let m' := removeRootItem (Some 2%positive) m in
  m_treeItems m' = m_treeItems m ∧ size m' = size m ∧ heap m' = heap m ∧
  emitted_since m m' = [beginRemoveRows noIndex 1 1; endRemoveRows].
Proof. vm_compute. done. Qed.

(** [addRootItem] keeps the row invariant of the root list when the node is
    alive and not yet in the list. *)
Lemma addRootItem_root_rows_ok p m :
  is_Some (heap m !! p) → p ∉ m_treeItems m →
  root_rows_ok m → root_rows_ok (addRootItem (Some p) m).
Proof.
  intros [it Hp] Hnotin Hok k q. unfold addRootItem; simpl.
  intros Hk. apply lookup_app_Some in Hk as [Hk|[Hlen Hk]].
  - destruct (Hok k q Hk) as (itq & Hq & Hrow).
    exists itq. split; [|done]. rewrite lookup_alter_ne; [done|].
    intros ->. apply Hnotin. by eapply list_elem_of_lookup_2.
  - apply list_lookup_singleton_Some in Hk as [Hk ->].
    exists (setRow (Z.of_nat (length (m_treeItems m))) it).
    rewrite lookup_alter_eq, Hp. split; [done|]. simpl. lia.
Qed.

(** C1, on the code. Two servers are added to an empty root list and the
    first is removed again.  The second is then the only root, at position
    0, and its row is still 1: the row invariant is lost. *)
Theorem removeRootItem_leaves_rows_stale :
  let m0 := set_treeItems [] sample_model in
  let m2 := addRootItem (Some 2%positive) (addRootItem (Some 1%positive) m0) in
  let m3 := removeRootItem (Some 1%positive) m2 in
  root_rows_ok m2 ∧
  m_treeItems m3 = [2%positive] ∧ size m3 = 1 ∧
  item_row <$> heap m3 !! 2%positive = Some 1 ∧
  ¬ root_rows_ok m3.
Proof.
  intros m0 m2 m3. split; [|split; [|split; [|split]]].
  - apply addRootItem_root_rows_ok;
      [by eexists | simpl; apply not_elem_of_cons; split; [done|apply not_elem_of_nil] |].
    apply addRootItem_root_rows_ok; [by eexists | apply not_elem_of_nil |].
    intros k q Hk. by destruct k.
  - by vm_compute.
  - by vm_compute.
  - by vm_compute.
  - intros Hok. destruct (Hok 0%nat 2%positive eq_refl) as (it & Hit & Hrow).
    vm_compute in Hit. injection Hit as <-. vm_compute in Hrow. discriminate.
Qed.

(** ** Index and parent *)

Lemma getItemFromIndex_createIndex r c p it m :
  0 ≤ r → 0 ≤ c → registered p m → heap m !! p = Some it →
  getItemFromIndex (createIndex r c p) m = Some (p, it).
Proof.
  intros Hr Hc Hreg Hp. unfold getItemFromIndex, isValid, toStrongRef; simpl.
  apply Z.leb_le in Hr, Hc. rewrite Hr, Hc; simpl.
  unfold registered in Hreg. by rewrite Hreg, Hp.
Qed.

Lemma registered_rawPointers_insert p m : registered p (rawPointers_insert p p m).
Proof. unfold registered; simpl. apply lookup_insert_eq. Qed.

Lemma ext_registered m m' p : ext m m' → registered p m → registered p m'.
Proof. intros (_ & _ & _ & _ & Hr). apply Hr. Qed.

Lemma ext_heap m m' : ext m m' → heap m' = heap m.
Proof. by intros (? & _). Qed.

(** C2, as stated, fails. The index [(0, 0, 9)] is valid but its pointer
    was never registered, so it addresses no node and is taken for the root:
    row 0 is within bounds, [index] returns the valid index of the first
    server, and the parent of that index is [QModelIndex()], not the index
    that was passed. *)
Lemma parent_of_index_under_unresolved_parent :
  let par := createIndex 0 0 9%positive in
  hasIndex 0 0 par sample_model = true ∧
  isValid (index 0 0 par sample_model).1 = true ∧
  (parent (index 0 0 par sample_model).1 (index 0 0 par sample_model).2).1 ≠ par.
Proof. vm_compute. repeat split; discriminate. Qed.

(** C2, amended. In a well-formed tree, for a parent index that is
    either [QModelIndex()] or the index [(row(), 0, node)] of a node it
    resolves to, and a row and column within bounds, [index] returns a valid
    index and [parent] of it is the parent index that was passed. *)
Theorem parent_of_index (row column : Z) (par : QModelIndex) (m : Model) :
  tree_ok m →
  (par = noIndex ∨
   ∃ p it, getItemFromIndex par m = Some (p, it) ∧ par = createIndex (item_row it) 0 p) →
  hasIndex row column par m = true →
  isValid (index row column par m).1 = true ∧
  (parent (index row column par m).1 (index row column par m).2).1 = par.
Proof.
  intros [Hroots Hkids] Hpar Hin. unfold index. rewrite Hin; simpl.
  unfold hasIndex in Hin.
  destruct ((row <? 0) || (column <? 0)) eqn:Hneg; [done|].
  apply orb_false_iff in Hneg as [Hrow Hcol].
  apply Z.ltb_ge in Hrow, Hcol.
  apply andb_true_iff in Hin as [Hlt _]. apply Z.ltb_lt in Hlt.
  assert (Hvalid : ∀ c, isValid (createIndex row column c) = true).
  { intros c. unfold isValid; simpl.
    apply Z.leb_le in Hrow, Hcol. by rewrite Hrow, Hcol. }
  destruct Hpar as [->|(p & it & Hres & ->)].
  - assert (Hnone : getItemFromIndex noIndex m = None) by done.
    rewrite Hnone in *. unfold rowCount in Hlt. rewrite Hnone in Hlt.
    apply Z.ltb_lt in Hlt as Hlt'. rewrite Hlt'.
    destruct (m_treeItems m !! Z.to_nat row) as [c|] eqn:Hc.
    2:{ apply lookup_ge_None in Hc. lia. }
    simpl. split; [apply Hvalid|].
    destruct (Hroots c) as (itc & Hitc & Hnoparent); [by eapply list_elem_of_lookup_2|].
    unfold parent.
    rewrite (getItemFromIndex_createIndex row column c itc) by
      (done || apply registered_rawPointers_insert).
    by rewrite Hnoparent.
  - rewrite Hres. unfold rowCount in Hlt. rewrite Hres in Hlt. simpl in Hlt.
    pose proof (getItemFromIndex_Some _ _ _ _ Hres) as Hp.
    unfold child. apply Z.ltb_ge in Hrow as Hrow'. rewrite Hrow'.
    destruct (item_children it !! Z.to_nat row) as [c|] eqn:Hc.
    2:{ apply lookup_ge_None in Hc. unfold childCount in Hlt. lia. }
    simpl. split; [apply Hvalid|].
    destruct (Hkids p it c Hp) as (itc & Hitc & Hback); [by eapply list_elem_of_lookup_2|].
    unfold parent.
    rewrite (getItemFromIndex_createIndex row column c itc) by
      (done || apply registered_rawPointers_insert).
    rewrite Hback. unfold toStrongRef; simpl. by rewrite Hp.
Qed.

Lemma sample_tree_ok : tree_ok sample_walked.
Proof.
  split.
  - intros p Hp. change (m_treeItems sample_walked) with [1; 2]%positive in Hp.
    apply elem_of_cons in Hp as [->|Hp]; [by eexists|].
    apply elem_of_cons in Hp as [->|Hp]; [by eexists|].
    by apply elem_of_nil in Hp.
  - intros p it c Hp Hc. change (heap sample_walked) with sample_heap in *.
    unfold sample_heap in Hp.
    repeat (apply lookup_insert_Some in Hp as [[<- <-]|[_ Hp]];
            [simpl in Hc;
             repeat (apply elem_of_cons in Hc as [->|Hc]; [by eexists|]);
             by apply elem_of_nil in Hc|]).
    done.
Qed.

(** A witness for C2: the second child of the database in the sample
    tree. *)
Lemma parent_of_index_witness :
  let par := createIndex 0 0 3%positive in
  (parent (index 1 0 par sample_walked).1 (index 1 0 par sample_walked).2).1 = par.
Proof.
  refine (proj2 (parent_of_index 1 0 (createIndex 0 0 3%positive) sample_walked
            sample_tree_ok _ _)).
  - right. exists 3%positive,
      (sample_item "db0" "database" [4; 5; 6]%positive (Some 1%positive) 0).
    split; reflexivity.
  - reflexivity.
Defined.

(** ** The search leaves the tree alone *)

Lemma match_rows_ext rec rows column p role text result m :
  (∀ s m0, ext m0 (rec s m0).2) →
  ext m (match_rows rec rows column p role text result m).2.
Proof.
  intros Hrec. revert result m.
  induction rows as [|r rows IH]; intros result m; simpl; [apply ext_refl|].
  pose proof (index_ext r column p m) as H1.
  destruct (index r column p m) as [idx m1]; simpl in H1.
  destruct (negb (isValid idx)).
  { eapply ext_trans; [exact H1|apply IH]. }
  destruct (hasChildren idx m1).
  - pose proof (index_ext 0 column idx m1) as H2.
    destruct (index 0 column idx m1) as [start' m2]; simpl in H2.
    pose proof (Hrec start' m2) as H3.
    destruct (rec start' m2) as [sub m3]; simpl in H3.
    eapply ext_trans; [exact H1|]. eapply ext_trans; [exact H2|].
    eapply ext_trans; [exact H3|apply IH].
  - eapply ext_trans; [exact H1|apply IH].
Qed.

Lemma match_ext fuel start role value m :
  ext m (match_ fuel start role value m).2.
Proof.
  revert start m. induction fuel as [|fuel IH]; intros start m; simpl; [apply ext_refl|].
  pose proof (parent_ext start m) as H1.
  destruct (parent start m) as [p m1]; simpl in H1.
  eapply ext_trans; [exact H1|]. apply match_rows_ext. intros s m0. apply IH.
Qed.

Lemma expandAll_emitted matches m :
  emitted (expandAll matches m) = emitted m ++ (expand <$> matches).
Proof.
  unfold expandAll. revert m.
  induction matches as [|i matches IH]; intros m; simpl; [by rewrite app_nil_r|].
  rewrite IH. simpl. by rewrite <- app_assoc.
Qed.

Lemma expandAll_frame matches m :
  heap (expandAll matches m) = heap m ∧
  m_treeItems (expandAll matches m) = m_treeItems m ∧
  m_rawPointers (expandAll matches m) = m_rawPointers m ∧
  m_expanded (expandAll matches m) = m_expanded m.
Proof.
  unfold expandAll. revert m.
  induction matches as [|i matches IH]; intros m; simpl; [done|].
  destruct (IH (emit (expand i) m)) as (-> & -> & -> & ->). done.
Qed.

Lemma grows_refl m : grows m m.
Proof.
  unfold grows. repeat split; auto. exists []. split; [by rewrite app_nil_r|constructor].
Qed.

Lemma grows_trans m1 m2 m3 : grows m1 m2 → grows m2 m3 → grows m1 m3.
Proof.
  intros (Hh & Ht & He & Hr & l & Hl & Hall) (Hh' & Ht' & He' & Hr' & l' & Hl' & Hall').
  unfold grows. rewrite Hh', Ht', He', Hl', Hl. repeat split; auto.
  exists (l ++ l'). split; [by rewrite app_assoc|]. by apply Forall_app.
Qed.

Lemma expandMatches_grows fuel searchFrom m item :
  grows m (expandMatches fuel searchFrom m item).
Proof.
  unfold expandMatches.
  pose proof (match_ext fuel searchFrom itemOriginalName (QVariant_bytes item) m) as H.
  destruct (match_ _ _ _ _ m) as [matches m']; simpl in H.
  destruct H as (Hh & Ht & He & Hs & Hr).
  destruct (expandAll_frame matches m') as (Hh' & Ht' & Hr' & He').
  unfold grows. rewrite Hh', Ht', He', Hh, Ht, He. repeat split; auto.
  - intros q Hq. unfold registered in *. rewrite Hr'. by apply Hr.
  - exists (expand <$> matches). rewrite expandAll_emitted, Hs. split; [done|].
    apply Forall_fmap, Forall_forall. intros i _. by exists i.
Qed.

Lemma foldl_expandMatches_grows fuel searchFrom names m :
  grows m (foldl (expandMatches fuel searchFrom) m names).
Proof.
  revert m. induction names as [|name names IH]; intros m; simpl; [apply grows_refl|].
  eapply grows_trans; [apply expandMatches_grows|apply IH].
Qed.

(** [restoreOpenedNamespaces] empties the set of expanded names and then
    only fills in the registry and emits [expand] signals. *)
Lemma restoreOpenedNamespaces_grows fuel dbIndex m :
  grows (set_expanded ∅ m) (restoreOpenedNamespaces fuel dbIndex m).
Proof.
  unfold restoreOpenedNamespaces.
  pose proof (index_ext 0 0 dbIndex (set_expanded ∅ m)) as H.
  destruct (index 0 0 dbIndex (set_expanded ∅ m)) as [searchFrom m1]; simpl in H.
  eapply grows_trans; [|apply foldl_expandMatches_grows].
  destruct H as (Hh & Ht & He & Hs & Hr).
  unfold grows. rewrite Hh, Ht, He, Hs. repeat split; auto.
  exists []. split; [by rewrite app_nil_r|constructor].
Qed.

(** ** Children loaded *)

Lemma getIndexFromItem_live w it m :
  heap m !! w = Some it → getIndexFromItem (Some w) m = createIndex (item_row it) 0 w.
Proof. intros Hw. unfold getIndexFromItem, toStrongRef. by rewrite Hw. Qed.

Lemma rowCount_registered w it m :
  heap m !! w = Some it → 0 ≤ item_row it → registered w m →
  rowCount (createIndex (item_row it) 0 w) m = childCount it.
Proof.
  intros Hw Hrow Hreg. unfold rowCount.
  by rewrite (getItemFromIndex_createIndex _ _ w it) by done.
Qed.

(** What [onItemChildsLoaded] does for a live node whose index is valid. *)
Lemma onItemChildsLoaded_live fuel settings w it m :
  heap m !! w = Some it → 0 ≤ item_row it →
  let index := createIndex (item_row it) 0 w in
  onItemChildsLoaded fuel settings (Some w) m =
    if String.eqb (getType it) "database" then
      if reopenNamespacesOnReload settings
      then restoreOpenedNamespaces fuel index (emit (expand index) (insertBracket index it m))
      else set_expanded ∅ (emit (expand index) (insertBracket index it m))
    else insertBracket index it m.
Proof.
  intros Hw Hrow index. unfold onItemChildsLoaded.
  rewrite (getIndexFromItem_live w it m Hw).
  unfold toStrongRef. rewrite Hw.
  assert (Hv : isValid (createIndex (item_row it) 0 w) = true).
  { unfold isValid; simpl. apply Z.leb_le in Hrow. by rewrite Hrow. }
  by rewrite Hv.
Qed.

(** C3, as stated, fails. The first server of the sample tree is alive,
    has one child and a valid index, but no index for it was ever handed
    out, so the registry does not know it.  The handler emits the bracket
    over rows 0 to 0 under its index, and [rowCount] of that index is then
    2, the size of the root list, not the child count 1. *)
Lemma onItemChildsLoaded_rowCount_unregistered :
  let index := getIndexFromItem (Some 1%positive) sample_model in
  let m' := onItemChildsLoaded 5 ∅ (Some 1%positive) sample_model in
  childCount <$> heap sample_model !! 1%positive = Some 1 ∧
  emitted_since sample_model m' = [beginInsertRows index 0 0; endInsertRows] ∧
  rowCount index m' ≠ 1.
Proof. vm_compute. repeat split; discriminate. Qed.

(** C3, amended. For a node that is alive, has a valid index and is
    known to the registry, with [C] children: the handler emits
    [beginInsertRows] over rows 0 to [C - 1] under the node's index and then
    [endInsertRows], whatever else it emits comes after and is [expand]
    signals, the tree is not changed, and [rowCount] of the node's index is
    [C] right after the bracket and when the handler returns. *)
Theorem onItemChildsLoaded_bracket (fuel : nat) (settings : gmap string bool)
  (w : positive) (it : TreeItem) (m : Model) :
  heap m !! w = Some it → 0 ≤ item_row it → registered w m →
  let index := getIndexFromItem (Some w) m in
  let C := childCount it in
  let m' := onItemChildsLoaded fuel settings (Some w) m in
  (∃ rest, emitted m' = emitted m ++ [beginInsertRows index 0 (C - 1); endInsertRows] ++ rest
           ∧ all_expand rest) ∧
  heap m' = heap m ∧ m_treeItems m' = m_treeItems m ∧
  rowCount index (insertBracket index it m) = C ∧
  rowCount index m' = C.
Proof.
  intros Hw Hrow Hreg index C m'. subst index C m'.
  rewrite (getIndexFromItem_live w it m Hw).
  rewrite (onItemChildsLoaded_live fuel settings w it m Hw Hrow).
  set (index := createIndex (item_row it) 0 w).
  set (m1 := insertBracket index it m).
  assert (Hm1 : emitted m1 = emitted m ++
            [beginInsertRows index 0 (childCount it - 1); endInsertRows]).
  { unfold m1, insertBracket; simpl. by rewrite <- app_assoc. }
  assert (Hrc1 : rowCount index m1 = childCount it) by by apply rowCount_registered.
  destruct (String.eqb (getType it) "database").
  2:{ repeat split; auto. exists []. rewrite app_nil_r. split; [done|constructor]. }
  destruct (reopenNamespacesOnReload settings).
  - destruct (restoreOpenedNamespaces_grows fuel index (emit (expand index) m1))
      as (Hh & Ht & _ & Hr & rest & Hrest & Hall).
    repeat split; auto.
    + exists (expand index :: rest). split.
      * change (emitted (set_expanded ∅ (emit (expand index) m1)))
          with (emitted m1 ++ [expand index]) in Hrest.
        rewrite Hrest, Hm1. by rewrite <- !app_assoc.
      * constructor; [by eexists|done].
    + apply rowCount_registered; [by rewrite Hh|done|by apply Hr].
  - repeat split; auto.
    exists [expand index]. split.
    + change (emitted (set_expanded ∅ (emit (expand index) m1)))
        with (emitted m1 ++ [expand index]).
      rewrite Hm1. by rewrite <- !app_assoc.
    + constructor; [by eexists|constructor].
Qed.

(** A witness for C3: the database of the sample tree, after a view has
    walked to it. *)
Lemma onItemChildsLoaded_bracket_witness :
  rowCount (getIndexFromItem (Some 3%positive) sample_walked)
    (onItemChildsLoaded 5 ∅ (Some 3%positive) sample_walked) = 3.
Proof.
  refine (proj2 (proj2 (proj2 (proj2
    (onItemChildsLoaded_bracket 5 ∅ 3%positive
       (sample_item "db0" "database" [4; 5; 6]%positive (Some 1%positive) 0)
       sample_walked _ _ _))))).
  - reflexivity.
  - simpl. lia.
  - reflexivity.
Defined.

(** C4, as stated, fails. With reopening switched off, the handler for
    the database of the sample tree still asks the view to expand the
    database itself. *)
Lemma onItemChildsLoaded_disabled_still_expands :
  let index := getIndexFromItem (Some 3%positive) sample_walked in
  let m' := onItemChildsLoaded 5 settings_off (Some 3%positive) sample_walked in
  reopenNamespacesOnReload settings_off = false ∧
  emitted_since sample_walked m' =
    [beginInsertRows index 0 2; endInsertRows; expand index].
Proof. vm_compute. done. Qed.

(** C4, amended. For a live database node with a valid index, the
    handler emits the insert bracket and then asks the view to expand the
    node, whatever the option says.  With the option enabled it then runs
    the restoration pass, which emits only [expand] signals; with the option
    disabled it emits nothing more.  Either way the set of expanded names is
    empty afterwards. *)
Theorem onItemChildsLoaded_database (fuel : nat) (settings : gmap string bool)
  (w : positive) (it : TreeItem) (m : Model) :
  heap m !! w = Some it → 0 ≤ item_row it → getType it = "database"%string →
  let index := getIndexFromItem (Some w) m in
  let m1 := emit (expand index) (insertBracket index it m) in
  let m' := onItemChildsLoaded fuel settings (Some w) m in
  emitted_since m m1 =
    [beginInsertRows index 0 (childCount it - 1); endInsertRows; expand index] ∧
  m_expanded m' = ∅ ∧
  (reopenNamespacesOnReload settings = true →
     m' = restoreOpenedNamespaces fuel index m1 ∧
     ∃ rest, emitted m' = emitted m1 ++ rest ∧ all_expand rest) ∧
  (reopenNamespacesOnReload settings = false →
     m' = set_expanded ∅ m1 ∧ emitted m' = emitted m1).
Proof.
  intros Hw Hrow Hdb index m1 m'. subst index m1 m'.
  rewrite (getIndexFromItem_live w it m Hw).
  rewrite (onItemChildsLoaded_live fuel settings w it m Hw Hrow).
  rewrite Hdb. simpl.
  set (index := createIndex (item_row it) 0 w).
  set (m1 := emit (expand index) (insertBracket index it m)).
  split.
  { apply emitted_since_app. unfold m1, insertBracket; simpl. by rewrite <- !app_assoc. }
  destruct (restoreOpenedNamespaces_grows fuel index m1)
    as (_ & _ & He & _ & rest & Hrest & Hall).
  destruct (reopenNamespacesOnReload settings).
  - split; [done|]. split; [|done]. intros _. split; [done|]. by exists rest.
  - split; [done|]. split; [done|]. intros _. done.
Qed.

(** A witness for C4: the database of the sample tree, the option off. *)
Lemma onItemChildsLoaded_database_witness :
  m_expanded (onItemChildsLoaded 5 settings_off (Some 3%positive) sample_walked) = ∅.
Proof.
  refine (proj1 (proj2
    (onItemChildsLoaded_database 5 settings_off 3%positive
       (sample_item "db0" "database" [4; 5; 6]%positive (Some 1%positive) 0)
       sample_walked _ _ _))).
  - reflexivity.
  - simpl. lia.
  - reflexivity.
Defined.

(** ** The search finds the descendants *)

Lemma wf_subtree_inv n h p :
  wf_subtree n h p = true →
  ∃ n' it, n = S n' ∧ h !! p = Some it ∧ 0 ≤ item_row it ∧
    ∀ c, c ∈ item_children it →
      ∃ itc, h !! c = Some itc ∧ item_parent itc = Some p ∧ wf_subtree n' h c = true.
Proof.
  destruct n as [|n']; simpl; [done|].
  destruct (h !! p) as [it|]; [|done].
  intros [Hrow Hkids]%andb_true_iff. exists n', it.
  repeat split; auto; [by apply Z.leb_le|].
  intros c Hc. rewrite forallb_forall in Hkids.
  specialize (Hkids c). rewrite <- list_elem_of_In in Hkids. specialize (Hkids Hc).
  destruct (h !! c) as [itc|]; [|done].
  apply andb_true_iff in Hkids as [Hback Hwf]. apply bool_decide_eq_true in Hback.
  by exists itc.
Qed.

Lemma wf_subtree_mono n n' h p :
  (n ≤ n')%nat → wf_subtree n h p = true → wf_subtree n' h p = true.
Proof.
  revert n' p. induction n as [|n IH]; intros n' p Hle; simpl; [done|].
  destruct n' as [|n']; [lia|]. simpl.
  destruct (h !! p) as [it|]; [|done].
  intros [Hrow Hkids]%andb_true_iff. apply andb_true_iff. split; [done|].
  rewrite forallb_forall in Hkids |- *. intros c Hc. specialize (Hkids c Hc).
  destruct (h !! c) as [itc|]; [|done].
  apply andb_true_iff in Hkids as [Hback Hwf]. apply andb_true_iff.
  split; [done|]. apply IH; [lia|done].
Qed.

Lemma rowCount_createIndex r p it m :
  0 ≤ r → registered p m → heap m !! p = Some it →
  rowCount (createIndex r 0 p) m = childCount it.
Proof.
  intros Hr Hreg Hp. unfold rowCount.
  by rewrite (getItemFromIndex_createIndex r 0 p it) by done.
Qed.

Lemma index_child row r p it c m :
  0 ≤ r → 0 ≤ row → registered p m → heap m !! p = Some it →
  item_children it !! Z.to_nat row = Some c →
  index row 0 (createIndex r 0 p) m = (createIndex row 0 c, rawPointers_insert c c m).
Proof.
  intros Hr Hrow Hreg Hp Hc. unfold index, hasIndex.
  rewrite (rowCount_createIndex r p it) by done.
  rewrite (getItemFromIndex_createIndex r 0 p it) by done.
  apply lookup_lt_Some in Hc as Hlt.
  assert (H1 : (row <? 0) = false) by by apply Z.ltb_ge.
  assert (H2 : (row <? childCount it) = true) by (apply Z.ltb_lt; unfold childCount; lia).
  rewrite H1, H2. simpl. unfold child. by rewrite H1, Hc.
Qed.

Lemma parent_child r col c itc p itp m :
  0 ≤ r → 0 ≤ col → registered c m → heap m !! c = Some itc →
  item_parent itc = Some p → heap m !! p = Some itp →
  parent (createIndex r col c) m =
    (createIndex (item_row itp) 0 p, rawPointers_insert p p m).
Proof.
  intros Hr Hcol Hreg Hc Hback Hp. unfold parent.
  rewrite (getItemFromIndex_createIndex r col c itc) by done.
  rewrite Hback. unfold toStrongRef. by rewrite Hp.
Qed.

Lemma data_originalName r c it m :
  0 ≤ r → registered c m → heap m !! c = Some it →
  data (createIndex r 0 c) itemOriginalName m = QVariant_bytes (getName it).
Proof.
  intros Hr Hreg Hc. unfold data.
  by rewrite (getItemFromIndex_createIndex r 0 c it) by done.
Qed.

Lemma hasChildren_createIndex r c it m :
  0 ≤ r → registered c m → heap m !! c = Some it →
  hasChildren (createIndex r 0 c) m = bool_decide (item_children it ≠ []).
Proof.
  intros Hr Hreg Hc. unfold hasChildren, columnCount.
  rewrite (rowCount_createIndex r c it) by done.
  rewrite andb_true_r. unfold childCount.
  destruct (item_children it) as [|c0 cs]; [done|].
  rewrite bool_decide_eq_true_2 by done. apply Z.ltb_lt. simpl. lia.
Qed.

Lemma match_rows_negative_column rec rows column p role text result m :
  column < 0 →
  match_rows rec rows column p role text result m = (result, m).
Proof.
  intros Hneg. induction rows as [|r rows IH]; simpl; [done|].
  unfold index, hasIndex. apply Z.ltb_lt in Hneg. rewrite Hneg, orb_true_r. simpl.
  exact IH.
Qed.

Lemma match_noIndex fuel role value m :
  (match_ fuel noIndex role value m).1 = [].
Proof.
  destruct fuel as [|fuel]; simpl; [done|].
  by rewrite match_rows_negative_column.
Qed.

Lemma hits_no_children fuel h text p it :
  h !! p = Some it → item_children it = [] → hits fuel h text p = [].
Proof. intros Hp Hnil. destruct fuel; simpl; [done|]. by rewrite Hp, Hnil. Qed.

Lemma hit_here_live h text r c it :
  h !! c = Some it →
  hit_here h text r c = if bool_decide (getName it = text) then [createIndex r 0 c] else [].
Proof. intros Hc. unfold hit_here. by rewrite Hc. Qed.

(** The row loop of [match_] over the children of a well-formed node [p],
    from row [r] on, when the recursive call [rec] on the first child of a
    child [c] returns [sub c]. *)
Lemma match_rows_hits (rec : QModelIndex → Model → list QModelIndex * Model)
  (sub : positive → list QModelIndex) (h : gmap positive TreeItem) (text : string)
  (p : positive) (itp : TreeItem) (rp : Z) :
  h !! p = Some itp → 0 ≤ rp →
  (∀ s m, ext m (rec s m).2) →
  (∀ c, c ∈ item_children itp →
     ∃ itc, h !! c = Some itc ∧
       (item_children itc = [] → sub c = []) ∧
       (∀ c0 m, item_children itc !! 0%nat = Some c0 → heap m = h → registered c0 m →
          (rec (createIndex 0 0 c0) m).1 = sub c)) →
  ∀ todo r result m,
    0 ≤ r →
    (∀ (j : nat) c, todo !! j = Some c →
       item_children itp !! (Z.to_nat r + j)%nat = Some c) →
    heap m = h → registered p m →
    (match_rows rec (seqZ r (Z.of_nat (length todo))) 0 (createIndex rp 0 p)
       itemOriginalName text result m).1
    = result ++ hits_rows sub h text r todo.
Proof.
  intros Hp Hrp Hext Hkids.
  induction todo as [|c todo IH]; intros r result m Hr Htodo Hm Hreg.
  { simpl. by rewrite app_nil_r. }
  rewrite seqZ_cons by (simpl; lia).
  replace (Z.pred (Z.of_nat (length (c :: todo)))) with (Z.of_nat (length todo))
    by (simpl; lia).
  assert (Hc : item_children itp !! Z.to_nat r = Some c).
  { specialize (Htodo 0%nat c eq_refl). by rewrite Nat.add_0_r in Htodo. }
  destruct (Hkids c) as (itc & Hitc & Hleaf & Hrec); [by eapply list_elem_of_lookup_2|].
  assert (Hnext : ∀ (j : nat) c', todo !! j = Some c' →
            item_children itp !! (Z.to_nat (Z.succ r) + j)%nat = Some c').
  { intros j c' Hj. specialize (Htodo (S j) c' Hj).
    by replace (Z.to_nat (Z.succ r) + j)%nat with (Z.to_nat r + S j)%nat by lia. }
  cbn [match_rows].
  rewrite (index_child r rp p itp c m) by (done || by rewrite Hm).
  set (m1 := rawPointers_insert c c m).
  assert (Hm1 : heap m1 = h) by done.
  assert (Hreg1 : registered p m1)
    by (eapply ext_registered; [apply ext_rawPointers_insert|done]).
  assert (Hregc : registered c m1) by apply registered_rawPointers_insert.
  assert (Hv : isValid (createIndex r 0 c) = true).
  { unfold isValid; simpl. apply Z.leb_le in Hr. by rewrite Hr. }
  rewrite Hv. cbn [negb].
  rewrite (data_originalName r c itc m1) by (done || by rewrite Hm1).
  cbn [toString].
  rewrite (hasChildren_createIndex r c itc m1) by (done || by rewrite Hm1).
  cbn [hits_rows]. rewrite (hit_here_live h text r c itc Hitc).
  assert (Hres : (if bool_decide (getName itc = text)
                  then result ++ [createIndex r 0 c] else result)
                 = result ++ (if bool_decide (getName itc = text)
                              then [createIndex r 0 c] else [])).
  { destruct (bool_decide _); [done|by rewrite app_nil_r]. }
  rewrite Hres.
  destruct (item_children itc) as [|c0 cs] eqn:Hcs.
  - rewrite bool_decide_eq_false_2 by (intros Hne; by apply Hne).
    rewrite (Hleaf eq_refl). simpl.
    rewrite (IH (Z.succ r) _ m1) by (done || lia).
    by rewrite <- app_assoc.
  - rewrite bool_decide_eq_true_2 by done.
    rewrite (index_child 0 r c itc c0 m1) by (done || by rewrite ?Hm1, ?Hcs).
    set (m2 := rawPointers_insert c0 c0 m1).
    assert (Hm2 : heap m2 = h) by done.
    assert (Hsub : (rec (createIndex 0 0 c0) m2).1 = sub c).
    { apply Hrec; [done|done|apply registered_rawPointers_insert]. }
    pose proof (Hext (createIndex 0 0 c0) m2) as Hext2.
    destruct (rec (createIndex 0 0 c0) m2) as [found m3]. simpl in Hsub, Hext2. subst found.
    assert (Hreg3 : registered p m3).
    { eapply ext_registered; [exact Hext2|].
      eapply ext_registered; [apply ext_rawPointers_insert|done]. }
    rewrite (IH (Z.succ r) _ m3); [|lia|done|by rewrite (ext_heap _ _ Hext2)|done].
    by rewrite <- !app_assoc.
Qed.

(** On a well-formed tree, [match_] started at the first child of [p]
    returns the indexes of the descendants of [p] named as the value looked
    for. *)
Lemma match_hits fuel :
  ∀ text p itp c0 m,
    wf_subtree (S fuel) (heap m) p = true →
    heap m !! p = Some itp → item_children itp !! 0%nat = Some c0 →
    registered c0 m →
    (match_ fuel (createIndex 0 0 c0) itemOriginalName (QVariant_bytes text) m).1
    = hits fuel (heap m) text p.
Proof.
  induction fuel as [|fuel IH]; intros text p itp c0 m Hwf Hp Hc0 Hreg; [done|].
  apply wf_subtree_inv in Hwf as (n' & it & [= <-] & Hp' & Hrow & Hkids).
  rewrite Hp in Hp'. injection Hp' as <-.
  destruct (Hkids c0) as (itc0 & Hitc0 & Hback & _); [by eapply list_elem_of_lookup_2|].
  cbn [match_ hits]. rewrite Hp.
  rewrite (parent_child 0 0 c0 itc0 p itp m) by done.
  cbn [idx_column idx_row createIndex].
  set (m1 := rawPointers_insert p p m).
  rewrite (rowCount_createIndex (item_row itp) p itp m1)
    by (done || apply registered_rawPointers_insert).
  rewrite Z.sub_0_r. unfold childCount.
  apply (match_rows_hits _ (hits fuel (heap m) text) (heap m) text p itp (item_row itp));
    try done.
  - intros s m0. apply match_ext.
  - intros c Hc. destruct (Hkids c Hc) as (itc & Hitc & _ & Hwfc).
    exists itc. split; [done|]. split.
    + intros Hnil. by eapply hits_no_children.
    + intros c1 m0 Hc1 Hm0 Hreg0. rewrite <- Hm0.
      apply (IH text c itc c1 m0); by rewrite ?Hm0.
  - apply registered_rawPointers_insert.
Qed.

Lemma elem_of_hits_rows sub h text cs r i :
  i ∈ hits_rows sub h text r cs ↔
  ∃ (j : nat) c, cs !! j = Some c ∧ (i ∈ hit_here h text (r + Z.of_nat j) c ∨ i ∈ sub c).
Proof.
  revert r. induction cs as [|c cs IH]; intros r; simpl.
  { split; [by intros ?%elem_of_nil|]. by intros (j & c & ? & _). }
  rewrite !elem_of_app, IH. split.
  - intros [Hhere|[Hsub|(j & c' & Hj & Hin)]].
    + exists 0%nat, c. rewrite Z.add_0_r. auto.
    + exists 0%nat, c. auto.
    + exists (S j), c'. split; [done|].
      by replace (r + Z.of_nat (S j)) with (r + 1 + Z.of_nat j) by lia.
  - intros ([|j] & c' & Hj & Hin); simpl in Hj.
    + injection Hj as <-. rewrite Z.add_0_r in Hin. destruct Hin; auto.
    + right. right. exists j, c'. split; [done|].
      by replace (r + 1 + Z.of_nat j) with (r + Z.of_nat (S j)) by lia.
Qed.

Lemma elem_of_hit_here h text r c i :
  i ∈ hit_here h text r c ↔
  i = createIndex r 0 c ∧ ∃ it, h !! c = Some it ∧ getName it = text.
Proof.
  unfold hit_here. destruct (h !! c) as [it|].
  - case_bool_decide as Hname.
    + rewrite list_elem_of_singleton. split; [eauto|]. by intros [-> _].
    + split; [by intros ?%elem_of_nil|]. intros (_ & it' & [= <-] & ?). done.
  - split; [by intros ?%elem_of_nil|]. by intros (_ & it' & ? & _).
Qed.

(** On a well-formed tree with enough fuel, the hits below [p] are the
    indexes of the proper descendants of [p] named [text], each with the row
    it has among its parent's children. *)
Lemma elem_of_hits fuel :
  ∀ h text p i,
    wf_subtree (S fuel) h p = true →
    (i ∈ hits fuel h text p ↔
     ∃ r q itq, i = createIndex r 0 q ∧ descends h p r q ∧
       h !! q = Some itq ∧ getName itq = text).
Proof.
  induction fuel as [|fuel IH]; intros h text p i Hwf.
  - apply wf_subtree_inv in Hwf as (n' & it & [= <-] & Hp & _ & Hkids).
    simpl. split; [by intros ?%elem_of_nil|].
    intros (r & q & itq & _ & Hdesc & _). exfalso.
    assert (Hsome : ∃ c, c ∈ item_children it).
    { inversion Hdesc as [p' it' k c Hp' Hk|p' it' c r' q' Hp' Hc _]; subst;
        rewrite Hp in Hp'; injection Hp' as <-;
        [exists q; by eapply list_elem_of_lookup_2|by exists c]. }
    destruct Hsome as [c Hc]. by destruct (Hkids c Hc) as (? & _ & _ & ?).
  - apply wf_subtree_inv in Hwf as (n' & it & [= <-] & Hp & _ & Hkids).
    cbn [hits]. rewrite Hp, elem_of_hits_rows. split.
    + intros (j & c & Hj & [Hhere|Hsub]).
      * apply elem_of_hit_here in Hhere as (-> & itc & Hitc & Hname).
        exists (0 + Z.of_nat j), c, itc. repeat split; auto.
        rewrite Z.add_0_l. by eapply descends_child.
      * assert (Hc : c ∈ item_children it) by by eapply list_elem_of_lookup_2.
        destruct (Hkids c Hc) as (itc & _ & _ & Hwfc).
        apply (IH h text c i Hwfc) in Hsub as (r & q & itq & -> & Hdesc & Hq & Hname).
        exists r, q, itq. repeat split; auto. by eapply descends_deeper.
    + intros (r & q & itq & -> & Hdesc & Hq & Hname). revert Hname.
      inversion Hdesc as [p' it' k c Hp' Hk|p' it' c r' q' Hp' Hc Hdesc']; subst;
        rewrite Hp in Hp'; injection Hp' as <-; intros Hname.
      * exists k, q. split; [done|]. left. rewrite Z.add_0_l.
        apply elem_of_hit_here. eauto.
      * apply list_elem_of_lookup_1 in Hc as Hj. destruct Hj as [j Hj].
        exists j, c. split; [done|]. right.
        destruct (Hkids c Hc) as (itc & _ & _ & Hwfc).
        apply (IH h text c _ Hwfc). eauto 10.
Qed.

(** ** Restoring the expanded namespaces *)

(** Where the search of [restoreOpenedNamespaces] starts, for a database
    index that resolves. *)
Lemma index_first_child dbIndex db dbit m :
  getItemFromIndex dbIndex m = Some (db, dbit) → idx_column dbIndex = 0 →
  (item_children dbit = [] ∧ index 0 0 dbIndex m = (noIndex, m)) ∨
  (∃ c0, item_children dbit !! 0%nat = Some c0 ∧
     index 0 0 dbIndex m = (createIndex 0 0 c0, rawPointers_insert c0 c0 m)).
Proof.
  intros Hres Hcol. unfold index, hasIndex, rowCount, columnCount.
  rewrite Hres, Hcol. simpl.
  destruct (item_children dbit) as [|c0 cs] eqn:Hcs.
  - left. unfold childCount. by rewrite Hcs.
  - right. exists c0. split; [done|]. unfold childCount, child. by rewrite Hcs.
Qed.

(** The search for one name, from the start [restoreOpenedNamespaces]
    computes, finds the descendants of the database with that name. *)
Lemma match_from_start fuel db dbit searchFrom name m :
  wf_subtree (S fuel) (heap m) db = true → heap m !! db = Some dbit →
  (item_children dbit = [] ∧ searchFrom = noIndex) ∨
  (∃ c0, item_children dbit !! 0%nat = Some c0 ∧ searchFrom = createIndex 0 0 c0 ∧
     registered c0 m) →
  (match_ fuel searchFrom itemOriginalName (QVariant_bytes name) m).1
  = hits fuel (heap m) name db.
Proof.
  intros Hwf Hdb [[Hnil ->]|(c0 & Hc0 & -> & Hreg)].
  - rewrite match_noIndex. symmetry. by eapply hits_no_children.
  - by eapply match_hits.
Qed.

Lemma foldl_expandMatches_emitted fuel db dbit searchFrom h names :
  wf_subtree (S fuel) h db = true → h !! db = Some dbit →
  ∀ m, heap m = h →
    (item_children dbit = [] ∧ searchFrom = noIndex) ∨
    (∃ c0, item_children dbit !! 0%nat = Some c0 ∧ searchFrom = createIndex 0 0 c0 ∧
       registered c0 m) →
    emitted (foldl (expandMatches fuel searchFrom) m names) =
    emitted m ++ concat ((λ name, expand <$> hits fuel h name db) <$> names).
Proof.
  intros Hwf Hdb. induction names as [|name names IH]; intros m Hm Hstart; simpl.
  { by rewrite app_nil_r. }
  pose proof (expandMatches_grows fuel searchFrom m name) as (Hh & _ & _ & Hr & _).
  rewrite IH.
  - unfold expandMatches.
    pose proof (match_from_start fuel db dbit searchFrom name m) as Hfound.
    pose proof (match_ext fuel searchFrom itemOriginalName (QVariant_bytes name) m)
      as (_ & _ & _ & Hs & _).
    destruct (match_ fuel searchFrom itemOriginalName (QVariant_bytes name) m)
      as [matches m1]. simpl in Hfound, Hs.
    rewrite expandAll_emitted, Hs, Hfound, Hm by (done || by rewrite Hm).
    by rewrite <- app_assoc.
  - by rewrite Hh.
  - destruct Hstart as [?|(c0 & ? & ? & ?)]; [by left|right]. exists c0. auto.
Qed.

Lemma elem_of_concat {A} (x : A) (ls : list (list A)) :
  x ∈ concat ls ↔ ∃ l, x ∈ l ∧ l ∈ ls.
Proof.
  induction ls as [|l ls IH]; simpl.
  { split; [by intros ?%elem_of_nil|]. by intros (l & _ & ?%elem_of_nil). }
  rewrite elem_of_app, IH. split.
  - intros [Hx|(l' & Hx & Hl')]; [exists l|exists l']; split; auto; by constructor.
  - intros (l' & Hx & [->|Hl']%elem_of_cons); eauto.
Qed.

(** With a slot that does nothing, the definitions with a slot are the
    definitions without. *)
Lemma restoreOpenedNamespaces_with_no_slot fuel dbIndex m :
  restoreOpenedNamespaces_with (λ _ m', m') fuel dbIndex m
  = restoreOpenedNamespaces fuel dbIndex m.
Proof. reflexivity. Qed.

Lemma handed_out_ext i m m' : ext m m' → handed_out i m → handed_out i m'.
Proof.
  intros Hext [Hv (q & Hq & Hreg)]. split; [done|]. exists q.
  split; [done|]. by eapply ext_registered.
Qed.

Lemma index_handed_out row column par m :
  isValid (index row column par m).1 = true →
  handed_out (index row column par m).1 (index row column par m).2.
Proof.
  unfold index. destruct (negb _); [done|].
  destruct (match getItemFromIndex par m with Some _ => _ | None => _ end) as [c|];
    [|done].
  simpl. intros Hv. split; [done|]. exists c. split; [done|].
  apply registered_rawPointers_insert.
Qed.

(** Every index the search returns was handed out by [index]: it is valid
    and its node is registered when the search returns. *)
Lemma match_rows_handed_out rec rows column p role text :
  (∀ s m0, ext m0 (rec s m0).2) →
  (∀ s m0, Forall (λ i, handed_out i (rec s m0).2) (rec s m0).1) →
  ∀ result m, Forall (λ i, handed_out i m) result →
    Forall (λ i, handed_out i (match_rows rec rows column p role text result m).2)
      (match_rows rec rows column p role text result m).1.
Proof.
  intros Hext Hrec. induction rows as [|r rows IH]; intros result m Hres; simpl; [done|].
  pose proof (index_ext r column p m) as H1.
  pose proof (index_handed_out r column p m) as Hidx.
  destruct (index r column p m) as [idx m1]; simpl in H1, Hidx.
  assert (Hres1 : Forall (λ i, handed_out i m1) result).
  { eapply Forall_impl; [exact Hres|]. intros i. by apply handed_out_ext. }
  destruct (isValid idx) eqn:Hv; simpl; [|by apply IH].
  specialize (Hidx eq_refl).
  assert (Hres1' : Forall (λ i, handed_out i m1)
            (if bool_decide (toString (data idx role m1) = text)
             then result ++ [idx] else result)).
  { destruct (bool_decide _); [|done]. apply Forall_app. split; [done|by constructor]. }
  destruct (hasChildren idx m1); [|by apply IH].
  pose proof (index_ext 0 column idx m1) as H2.
  destruct (index 0 column idx m1) as [start' m2]; simpl in H2.
  pose proof (Hext start' m2) as H3. pose proof (Hrec start' m2) as H4.
  destruct (rec start' m2) as [sub m3]; simpl in H3, H4.
  apply IH. apply Forall_app. split; [|done].
  eapply Forall_impl; [exact Hres1'|]. intros i Hi.
  eapply handed_out_ext; [exact H3|]. by eapply handed_out_ext.
Qed.

Lemma match_handed_out fuel :
  ∀ start role value m,
    Forall (λ i, handed_out i (match_ fuel start role value m).2)
      (match_ fuel start role value m).1.
Proof.
  induction fuel as [|fuel IH]; intros start role value m; simpl; [done|].
  destruct (parent start m) as [p m1].
  apply match_rows_handed_out; [intros; apply match_ext|intros; apply IH|done].
Qed.

Lemma getItemFromIndex_same_tree i m m' :
  heap m' = heap m → m_rawPointers m' = m_rawPointers m →
  getItemFromIndex i m' = getItemFromIndex i m.
Proof. intros Hh Hr. unfold getItemFromIndex, toStrongRef. by rewrite Hh, Hr. Qed.

Lemma setExpanded_same_tree i m :
  heap (setExpanded i m) = heap m ∧ m_treeItems (setExpanded i m) = m_treeItems m ∧
  m_rawPointers (setExpanded i m) = m_rawPointers m ∧
  emitted (setExpanded i m) = emitted m.
Proof.
  unfold setExpanded. destruct (getItemFromIndex i m) as [[? it]|]; [|done].
  by destruct (negb _).
Qed.

(** The expansions of the matches of one name, with a consumer that marks
    each node it is asked to expand as expanded: the name is tracked again
    exactly when one of the matches is a namespace. *)
Lemma expandAll_with_setExpanded name :
  ∀ matches m,
    (∀ i, i ∈ matches → ∃ q itq, getItemFromIndex i m = Some (q, itq) ∧
                                  getName itq = name) →
    let m' := expandAll_with setExpanded matches m in
    heap m' = heap m ∧ m_treeItems m' = m_treeItems m ∧
    m_rawPointers m' = m_rawPointers m ∧
    emitted m' = emitted m ++ (expand <$> matches) ∧
    ∀ x, x ∈ m_expanded m' ↔
      x ∈ m_expanded m ∨
      (x = name ∧ ∃ i q itq, i ∈ matches ∧ getItemFromIndex i m = Some (q, itq) ∧
                             getType itq = "namespace"%string).
Proof.
  induction matches as [|i matches IH]; intros m Hm; simpl.
  { rewrite app_nil_r. repeat split; auto.
    intros [?|(_ & i & ? & ? & ?%elem_of_nil & _)]; done. }
  set (m1 := setExpanded i (emit (expand i) m)).
  destruct (setExpanded_same_tree i (emit (expand i) m)) as (Hh & Ht & Hr & Hs).
  fold m1 in Hh, Ht, Hr, Hs. simpl in Hh, Ht, Hr, Hs.
  assert (Hsame : ∀ j, getItemFromIndex j m1 = getItemFromIndex j m)
    by (intros j; by apply getItemFromIndex_same_tree).
  destruct (IH m1) as (Hh' & Ht' & Hr' & Hs' & He').
  { intros j Hj. rewrite Hsame. apply Hm. by right. }
  unfold expandAll_with in *. fold m1.
  rewrite Hh', Ht', Hr', Hs', Hh, Ht, Hr, Hs.
  split; [done|]. split; [done|]. split; [done|].
  split; [by rewrite <- app_assoc|].
  destruct (Hm i) as (q & itq & Hi & Hname); [by left|].
  assert (He1 : ∀ x, x ∈ m_expanded m1 ↔
            x ∈ m_expanded m ∨ (x = name ∧ getType itq = "namespace"%string)).
  { intros x. unfold m1, setExpanded.
    change (getItemFromIndex i (emit (expand i) m)) with (getItemFromIndex i m).
    rewrite Hi. destruct (String.eqb (getType itq) "namespace") eqn:Hns; simpl.
    - apply String.eqb_eq in Hns. rewrite elem_of_union, elem_of_singleton, Hname.
      tauto.
    - apply String.eqb_neq in Hns. tauto. }
  intros x. rewrite He', He1. split.
  - intros [[Hx|[-> Hns]]|(-> & j & q' & itq' & Hj & Hres & Hns)]; [by left| |].
    + right. split; [done|]. exists i, q, itq. split; [by left|done].
    + right. split; [done|]. exists j, q', itq'. rewrite Hsame in Hres.
      split; [by right|done].
  - intros [Hx|(-> & j & q' & itq' & Hj & Hres & Hns)]; [by left; left|].
    apply elem_of_cons in Hj as [->|Hj].
    + left. right. split; [done|]. rewrite Hi in Hres. by injection Hres as <- <-.
    + right. split; [done|]. exists j, q', itq'. by rewrite Hsame.
Qed.

Lemma handed_out_resolves i m q itq :
  handed_out i m → internalPointer i = Some q → heap m !! q = Some itq →
  getItemFromIndex i m = Some (q, itq).
Proof.
  intros [Hv (q' & Hq' & Hreg)] Hq Hlive. rewrite Hq in Hq'. injection Hq' as <-.
  unfold getItemFromIndex, toStrongRef. unfold registered in Hreg.
  by rewrite Hv, Hq, Hreg, Hlive.
Qed.

(** The pass for one name, with a consumer that marks each node it is asked
    to expand as expanded. *)
Lemma expandMatches_with_setExpanded fuel db dbit searchFrom name m :
  wf_subtree (S fuel) (heap m) db = true → heap m !! db = Some dbit →
  (item_children dbit = [] ∧ searchFrom = noIndex) ∨
  (∃ c0, item_children dbit !! 0%nat = Some c0 ∧ searchFrom = createIndex 0 0 c0 ∧
     registered c0 m) →
  let m' := expandMatches_with setExpanded fuel searchFrom m name in
  heap m' = heap m ∧ (∀ q, registered q m → registered q m') ∧
  emitted m' = emitted m ++ (expand <$> hits fuel (heap m) name db) ∧
  ∀ x, x ∈ m_expanded m' ↔
    x ∈ m_expanded m ∨ (x = name ∧ namespace_below (heap m) db name).
Proof.
  intros Hwf Hdb Hstart. unfold expandMatches_with.
  pose proof (match_from_start fuel db dbit searchFrom name m Hwf Hdb Hstart) as Hfound.
  pose proof (match_ext fuel searchFrom itemOriginalName (QVariant_bytes name) m)
    as (Hh & _ & He & Hs & Hr).
  pose proof (match_handed_out fuel searchFrom itemOriginalName (QVariant_bytes name) m)
    as Hho.
  destruct (match_ fuel searchFrom itemOriginalName (QVariant_bytes name) m)
    as [matches m1]. simpl in Hfound, Hh, He, Hs, Hr, Hho. subst matches.
  rewrite Forall_forall in Hho.
  assert (Hresolve : ∀ i r q itq, i = createIndex r 0 q →
            i ∈ hits fuel (heap m) name db → heap m !! q = Some itq →
            getItemFromIndex i m1 = Some (q, itq)).
  { intros i r q itq -> Hi Hq. apply handed_out_resolves; [by apply Hho|done|].
    by rewrite Hh. }
  destruct (expandAll_with_setExpanded name (hits fuel (heap m) name db) m1)
    as (Hh' & _ & Hr' & Hs' & He').
  { intros i Hi.
    apply (elem_of_hits fuel (heap m) name db i Hwf) in Hi as Hi'.
    destruct Hi' as (r & q & itq & Heq & _ & Hq & Hname).
    exists q, itq. split; [by eapply Hresolve|done]. }
  simpl. rewrite Hh', Hs', Hh, Hs. split; [done|]. split.
  { intros q Hq. unfold registered in *. rewrite Hr'. by apply Hr. }
  split; [done|]. intros x. rewrite He', He.
  enough (Hns : (∃ i q itq, i ∈ hits fuel (heap m) name db ∧
                   getItemFromIndex i m1 = Some (q, itq) ∧
                   getType itq = "namespace"%string)
                ↔ namespace_below (heap m) db name) by (rewrite Hns; tauto).
  split.
  - intros (i & q & itq & Hi & Hres & Hns).
    apply (elem_of_hits fuel (heap m) name db i Hwf) in Hi as Hi'.
    destruct Hi' as (r & q0 & itq0 & Heq & Hdesc & Hq0 & Hname).
    rewrite (Hresolve i r q0 itq0 Heq Hi Hq0) in Hres. injection Hres as <- <-.
    by exists r, q0, itq0.
  - intros (r & q & itq & Hdesc & Hq & Hname & Hns).
    assert (Hi : createIndex r 0 q ∈ hits fuel (heap m) name db).
    { apply (elem_of_hits fuel (heap m) name db _ Hwf). eauto 10. }
    exists (createIndex r 0 q), q, itq. split; [done|]. split; [|done].
    by eapply Hresolve.
Qed.

Lemma foldl_expandMatches_with_setExpanded fuel db dbit searchFrom h names :
  wf_subtree (S fuel) h db = true → h !! db = Some dbit →
  ∀ m, heap m = h →
    (item_children dbit = [] ∧ searchFrom = noIndex) ∨
    (∃ c0, item_children dbit !! 0%nat = Some c0 ∧ searchFrom = createIndex 0 0 c0 ∧
       registered c0 m) →
    let m' := foldl (expandMatches_with setExpanded fuel searchFrom) m names in
    emitted m' = emitted m ++ concat ((λ name, expand <$> hits fuel h name db) <$> names) ∧
    ∀ x, x ∈ m_expanded m' ↔
      x ∈ m_expanded m ∨ (x ∈ names ∧ namespace_below h db x).
Proof.
  intros Hwf Hdb. induction names as [|name names IH]; intros m Hm Hstart; simpl.
  { rewrite app_nil_r. split; [done|]. intros x. split; [by left|].
    by intros [?|[?%elem_of_nil _]]. }
  destruct (expandMatches_with_setExpanded fuel db dbit searchFrom name m)
    as (Hh & Hr & Hs & He); [by rewrite Hm|by rewrite Hm|done|].
  rewrite Hm in Hh, Hs, He.
  destruct (IH (expandMatches_with setExpanded fuel searchFrom m name)) as [Hs' He'].
  { done. }
  { destruct Hstart as [?|(c0 & ? & ? & ?)]; [by left|right]. exists c0. auto. }
  rewrite Hs', Hs. split; [by rewrite <- app_assoc|].
  intros x. rewrite He', He, elem_of_cons. split.
  - intros [[?|[-> ?]]|[? ?]]; auto.
  - intros [?|[[->|?] ?]]; auto.
Qed.

Lemma descends_has_parent m p r q :
  tree_ok m → descends (heap m) p r q →
  ∃ itq w, heap m !! q = Some itq ∧ item_parent itq = Some w.
Proof.
  intros [_ Hkids]. induction 1 as [p it k c Hp Hk|p it c r q Hp Hc _ IH]; [|done].
  destruct (Hkids p it c Hp) as (itc & Hitc & Hback); [by eapply list_elem_of_lookup_2|].
  by exists itc, p.
Qed.

(** C5, as stated, fails. Nothing is registered in the sample tree and
    the name "remote" is tracked.  The index [onItemChildsLoaded] builds for
    the database resolves to no node, so the search does not start at the
    first child of the database but at the first root: the pass asks the
    view to expand the second server, which is not below the database. *)
Lemma restoreOpenedNamespaces_unregistered_database :
  let m := set_expanded {["remote"%string]} sample_model in
  let dbIndex := getIndexFromItem (Some 3%positive) m in
  emitted_since m (restoreOpenedNamespaces 5 dbIndex m)
    = [expand (createIndex 1 0 2%positive)] ∧
  ∀ r, ¬ descends (heap m) 3%positive r 2%positive.
Proof.
  split; [by vm_compute|].
  intros r Hdesc.
  assert (Hok : tree_ok (set_expanded {["remote"%string]} sample_model))
    by exact sample_tree_ok.
  destruct (descends_has_parent _ _ _ _ Hok Hdesc) as (itq & w & Hq & Hback).
  vm_compute in Hq. injection Hq as <-. discriminate Hback.
Qed.

(** C5, amended. For a database index that resolves to its node, at
    the head of a well-formed tree: [restoreOpenedNamespaces] leaves the set
    of expanded names empty and the tree unchanged, and emits exactly the
    [expand] signals for the proper descendants of the database whose
    original name is, character for character, one of the names that were in
    the set before the call: every such descendant is expanded, whether a
    name has no, one or many of them.  The set is emptied before the first
    search: when the consumer answers each [expand] by marking the node
    expanded ([setExpanded]), the same signals are emitted and the names
    tracked when the pass returns are those names of the snapshot that were
    found on a namespace below the database; every other name of the
    snapshot is forgotten. *)
Theorem restoreOpenedNamespaces_expands_matches (fuel n : nat) (dbIndex : QModelIndex)
  (db : positive) (dbit : TreeItem) (m : Model) :
  getItemFromIndex dbIndex m = Some (db, dbit) → idx_column dbIndex = 0 →
  wf_subtree n (heap m) db = true → (n ≤ S fuel)%nat →
  let m' := restoreOpenedNamespaces fuel dbIndex m in
  let m'' := restoreOpenedNamespaces_with setExpanded fuel dbIndex m in
  m_expanded m' = ∅ ∧ heap m' = heap m ∧ m_treeItems m' = m_treeItems m ∧
  (∀ s, s ∈ emitted_since m m' ↔
     ∃ r q itq, s = expand (createIndex r 0 q) ∧ descends (heap m) db r q ∧
       heap m !! q = Some itq ∧ getName itq ∈ m_expanded m) ∧
  emitted m'' = emitted m' ∧
  (∀ name, name ∈ m_expanded m'' ↔
     name ∈ m_expanded m ∧ namespace_below (heap m) db name).
Proof.
  intros Hres Hcol Hwf Hfuel m' m''. unfold m', m''. clear m' m''.
  apply (wf_subtree_mono n (S fuel)) in Hwf; [|done].
  pose proof (getItemFromIndex_Some _ _ _ _ Hres) as Hdb.
  assert (Hem : emitted (restoreOpenedNamespaces fuel dbIndex m) = emitted m ++
            concat ((λ name, expand <$> hits fuel (heap m) name db)
                      <$> elements (m_expanded m))).
  { unfold restoreOpenedNamespaces.
    pose proof (index_first_child dbIndex db dbit (set_expanded ∅ m) Hres Hcol)
      as [[Hnil Hidx]|(c0 & Hc0 & Hidx)]; rewrite Hidx.
    - rewrite (foldl_expandMatches_emitted fuel db dbit noIndex (heap m)); auto.
    - rewrite (foldl_expandMatches_emitted fuel db dbit (createIndex 0 0 c0) (heap m));
        auto.
      right. exists c0. repeat split; auto. apply registered_rawPointers_insert. }
  assert (Hwith :
    emitted (restoreOpenedNamespaces_with setExpanded fuel dbIndex m) = emitted m ++
      concat ((λ name, expand <$> hits fuel (heap m) name db)
                <$> elements (m_expanded m)) ∧
    ∀ x, x ∈ m_expanded (restoreOpenedNamespaces_with setExpanded fuel dbIndex m) ↔
      x ∈ (∅ : gset string) ∨
      (x ∈ elements (m_expanded m) ∧ namespace_below (heap m) db x)).
  { unfold restoreOpenedNamespaces_with.
    pose proof (index_first_child dbIndex db dbit (set_expanded ∅ m) Hres Hcol)
      as [[Hnil Hidx]|(c0 & Hc0 & Hidx)]; rewrite Hidx.
    - apply (foldl_expandMatches_with_setExpanded fuel db dbit noIndex (heap m)
               (elements (m_expanded m)) Hwf Hdb (set_expanded ∅ m)); auto.
    - apply (foldl_expandMatches_with_setExpanded fuel db dbit (createIndex 0 0 c0)
               (heap m) (elements (m_expanded m)) Hwf Hdb
               (rawPointers_insert c0 c0 (set_expanded ∅ m))); auto.
      right. exists c0. repeat split; auto. apply registered_rawPointers_insert. }
  destruct Hwith as [Hem' Hexp'].
  split; [|split; [|split; [|split; [|split]]]].
  - by destruct (restoreOpenedNamespaces_grows fuel dbIndex m) as (_ & _ & -> & _).
  - by destruct (restoreOpenedNamespaces_grows fuel dbIndex m) as (-> & _).
  - by destruct (restoreOpenedNamespaces_grows fuel dbIndex m) as (_ & -> & _).
  - intros s. rewrite (emitted_since_app m _ _ Hem).
    rewrite elem_of_concat. split.
    + intros (l & Hs & Hl). apply list_elem_of_fmap in Hl as (name & -> & Hname).
      apply list_elem_of_fmap in Hs as (i & -> & Hi).
      apply (elem_of_hits fuel (heap m) name db i Hwf) in Hi
        as (r & q & itq & -> & Hdesc & Hq & <-).
      exists r, q, itq. repeat split; auto. by apply elem_of_elements.
    + intros (r & q & itq & -> & Hdesc & Hq & Hname).
      exists (expand <$> hits fuel (heap m) (getName itq) db). split.
      * apply list_elem_of_fmap. exists (createIndex r 0 q). split; [done|].
        apply (elem_of_hits fuel (heap m) (getName itq) db _ Hwf). eauto 10.
      * apply list_elem_of_fmap. exists (getName itq). split; [done|].
        by apply elem_of_elements.
  - by rewrite Hem', Hem.
  - intros name. rewrite Hexp', elem_of_elements. split.
    + by intros [?%not_elem_of_empty|?].
    + by right.
Qed.

(** A witness for C5: the database of the sample tree, the names "users"
    and "sessions" tracked.  The namespace "users" and the namespace "users"
    inside it are both expanded; a consumer that marks them expanded leaves
    "users" tracked and "sessions", which names no node, forgotten. *)
Lemma restoreOpenedNamespaces_expands_matches_witness :
  let m := set_expanded {["users"%string; "sessions"%string]} sample_walked in
  let m' := restoreOpenedNamespaces 5 (createIndex 0 0 3%positive) m in
  let m'' := restoreOpenedNamespaces_with setExpanded 5 (createIndex 0 0 3%positive) m in
  m_expanded m' = ∅ ∧
  (∀ s, s ∈ emitted_since m m' ↔
     ∃ r q itq, s = expand (createIndex r 0 q) ∧ descends (heap m) 3%positive r q ∧
       heap m !! q = Some itq ∧ getName itq ∈ m_expanded m) ∧
  (∀ name, name ∈ m_expanded m'' ↔
     name ∈ m_expanded m ∧ namespace_below (heap m) 3%positive name).
Proof.
  intros m m' m''.
  pose proof (restoreOpenedNamespaces_expands_matches 5 3 (createIndex 0 0 3%positive)
    3%positive (sample_item "db0" "database" [4; 5; 6]%positive (Some 1%positive) 0) m)
    as H.
  destruct H as (He & _ & _ & Hs & _ & Hn).
  - reflexivity.
  - reflexivity.
  - vm_compute. reflexivity.
  - lia.
  - split; [exact He|]. split; [exact Hs|exact Hn].
Defined.

(** On the sample tree: the signals are the same with and without the
    consumer, and with it only "users" is tracked afterwards. *)
Example restoreOpenedNamespaces_with_sample :
  let m := set_expanded {["users"%string; "sessions"%string]} sample_walked in
  emitted (restoreOpenedNamespaces_with setExpanded 5 (createIndex 0 0 3%positive) m)
    = [expand (createIndex 0 0 4%positive); expand (createIndex 0 0 7%positive)] ∧
  elements (m_expanded
              (restoreOpenedNamespaces_with setExpanded 5 (createIndex 0 0 3%positive) m))
    = ["users"%string] ∧
  elements (m_expanded (restoreOpenedNamespaces 5 (createIndex 0 0 3%positive) m)) = [].
Proof. vm_compute. done. Qed.

(** The two namespaces named "users" of the sample tree are what the
    restoration pass expands. *)
Example restoreOpenedNamespaces_sample :
  let m := set_expanded {["users"%string]} sample_walked in
  emitted_since m (restoreOpenedNamespaces 5 (createIndex 0 0 3%positive) m)
  = [expand (createIndex 0 0 4%positive); expand (createIndex 0 0 7%positive)].
Proof. vm_compute. reflexivity. Qed.

(** * Further properties of the model *)

(** ** Handing out indexes *)

Lemma isValid_createIndex r c p :
  isValid (createIndex r c p) = true ↔ 0 ≤ r ∧ 0 ≤ c.
Proof.
  unfold isValid; simpl. rewrite andb_true_r, andb_true_iff, !Z.leb_le. done.
Qed.

Lemma getItemFromIndex_valid i m x :
  getItemFromIndex i m = Some x → isValid i = true.
Proof. unfold getItemFromIndex. by destruct (isValid i). Qed.

(** What [index] returns, by cases on whether the position is within
    bounds. *)
Lemma index_cases row column par m :
  (¬ (0 ≤ row < rowCount par m ∧ column = 0) ∧ index row column par m = (noIndex, m)) ∨
  (0 ≤ row < rowCount par m ∧ column = 0 ∧
   ∃ c, index row column par m = (createIndex row 0 c, rawPointers_insert c c m) ∧
     match getItemFromIndex par m with
     | Some (_, parentItem) => item_children parentItem !! Z.to_nat row = Some c
     | None => m_treeItems m !! Z.to_nat row = Some c
     end).
Proof.
  unfold index, hasIndex, columnCount.
  destruct (row <? 0) eqn:Hrow; simpl.
  { left. apply Z.ltb_lt in Hrow. split; [lia|done]. }
  apply Z.ltb_ge in Hrow.
  destruct (column <? 0) eqn:Hcol; simpl.
  { left. apply Z.ltb_lt in Hcol. split; [lia|done]. }
  apply Z.ltb_ge in Hcol.
  destruct (row <? rowCount par m) eqn:Hlt; simpl.
  2:{ left. apply Z.ltb_ge in Hlt. split; [lia|done]. }
  apply Z.ltb_lt in Hlt.
  destruct (column <? 1) eqn:Hc1; simpl.
  2:{ left. apply Z.ltb_ge in Hc1. split; [lia|done]. }
  apply Z.ltb_lt in Hc1. assert (column = 0) as -> by lia.
  right. split; [lia|]. split; [done|].
  unfold rowCount in Hlt.
  destruct (getItemFromIndex par m) as [[p parentItem]|] eqn:Hpar.
  - destruct (0 <? idx_column par); [lia|].
    unfold child. rewrite (proj2 (Z.ltb_ge row 0) Hrow).
    destruct (item_children parentItem !! Z.to_nat row) as [c|] eqn:Hc.
    + by exists c.
    + apply lookup_ge_None in Hc. unfold childCount in Hlt. lia.
  - apply Z.ltb_lt in Hlt as Hlt'. rewrite Hlt'.
    destruct (m_treeItems m !! Z.to_nat row) as [c|] eqn:Hc.
    + by exists c.
    + apply lookup_ge_None in Hc. lia.
Qed.

(** X1. [index] returns a valid index exactly when the row is within
    the row count of the parent it is given and the column is 0; in every
    other case it returns [QModelIndex()] and leaves the model as it was. *)
Theorem index_valid_iff_in_bounds (row column : Z) (par : QModelIndex) (m : Model) :
  (isValid (index row column par m).1 = true ↔
     0 ≤ row < rowCount par m ∧ column = 0) ∧
  (isValid (index row column par m).1 = false → index row column par m = (noIndex, m)).
Proof.
  destruct (index_cases row column par m) as [[Hout ->]|(Hin & -> & c & -> & _)]; simpl.
  - split; [|done]. split; [done|]. intros ?. by exfalso.
  - assert (Hv : isValid (createIndex row 0 c) = true)
      by (apply isValid_createIndex; lia).
    rewrite Hv. split; [|done]. split; auto.
Qed.

(** X2. A valid index returned by [index] carries the row and column
    asked for and the address of the child at that row (of the node the
    parent index resolves to, or of the root list when it resolves to none).
    The child is registered afterwards, nothing but the registry is changed,
    and when the child is alive the index resolves to it. *)
Theorem index_registers_child (row column : Z) (par : QModelIndex) (m : Model) :
  isValid (index row column par m).1 = true →
  ∃ c, (index row column par m).1 = createIndex row column c ∧
    match getItemFromIndex par m with
    | Some (_, parentItem) => item_children parentItem !! Z.to_nat row = Some c
    | None => m_treeItems m !! Z.to_nat row = Some c
    end ∧
    registered c (index row column par m).2 ∧
    ext m (index row column par m).2 ∧
    ∀ itc, heap m !! c = Some itc →
      getItemFromIndex (index row column par m).1 (index row column par m).2
      = Some (c, itc).
Proof.
  destruct (index_cases row column par m) as [[_ ->]|(Hin & -> & c & -> & Hc)]; simpl.
  { done. }
  intros _. exists c. repeat split; auto.
  - apply registered_rawPointers_insert.
  - apply ext_rawPointers_insert.
  - intros itc Hitc. apply getItemFromIndex_createIndex; try done; try lia.
    apply registered_rawPointers_insert.
Qed.

Lemma index_registers_child_witness :
  getItemFromIndex (index 2 0 (createIndex 0 0 3%positive) sample_walked).1
    (index 2 0 (createIndex 0 0 3%positive) sample_walked).2
  = Some (6%positive, sample_item "orders" "namespace" [] (Some 3%positive) 2).
Proof.
  destruct (index_registers_child 2 0 (createIndex 0 0 3%positive) sample_walked)
    as (c & Hi & Hc & _ & _ & Hres).
  - reflexivity.
  - vm_compute in Hc. injection Hc as <-. apply Hres. reflexivity.
Defined.

Lemma getItemFromIndex_rawPointers_insert i c m :
  reg_ok m → (isValid i = false ∨ is_Some (getItemFromIndex i m)) →
  getItemFromIndex i (rawPointers_insert c c m) = getItemFromIndex i m.
Proof.
  intros Hok Hi. unfold getItemFromIndex in *.
  destruct (isValid i); [|done].
  destruct Hi as [?|[x Hx]]; [done|].
  destruct (internalPointer i) as [raw|]; [|done]. simpl.
  destruct (m_rawPointers m !! raw) as [weak|] eqn:Hraw; [|done].
  pose proof (Hok raw weak Hraw) as <-.
  destruct (decide (c = raw)) as [->|Hne].
  - by rewrite lookup_insert_eq.
  - by rewrite lookup_insert_ne, Hraw.
Qed.

(** X3. With a registry whose entries map each address to itself, and
    a parent index that is invalid or resolves to a node, asking [index] a
    second time gives the same index and changes nothing any more. *)
Theorem index_idempotent (row column : Z) (par : QModelIndex) (m : Model) :
  reg_ok m → (isValid par = false ∨ is_Some (getItemFromIndex par m)) →
  index row column par (index row column par m).2 = index row column par m.
Proof.
  intros Hok Hpar.
  destruct (index_cases row column par m) as [[_ Hi]|(Hin & -> & c & Hi & Hc)].
  { rewrite Hi. simpl. exact Hi. }
  rewrite Hi. simpl.
  set (m1 := rawPointers_insert c c m).
  assert (Hres : getItemFromIndex par m1 = getItemFromIndex par m)
    by by apply getItemFromIndex_rawPointers_insert.
  assert (Hrc : rowCount par m1 = rowCount par m).
  { unfold rowCount. by rewrite Hres. }
  destruct (index_cases row 0 par m1) as [[Hout _]|(_ & _ & c' & -> & Hc')].
  { rewrite Hrc in Hout. exfalso. apply Hout. by split. }
  rewrite Hres in Hc'.
  assert (c' = c) as ->.
  { destruct (getItemFromIndex par m) as [[? ?]|]; simpl in Hc'; congruence. }
  f_equal. unfold m1, rawPointers_insert; simpl. by rewrite insert_insert_eq.
Qed.

Lemma reg_ok_sample_walked : reg_ok sample_walked.
Proof.
  intros raw weak H. change (m_rawPointers sample_walked)
    with (<[3%positive := 3%positive]> (<[1%positive := 1%positive]>
            (∅ : gmap positive positive))) in H.
  apply lookup_insert_Some in H as [[<- <-]|[_ H]]; [done|].
  apply lookup_insert_Some in H as [[<- <-]|[_ H]]; done.
Qed.

Lemma index_idempotent_witness :
  index 1 0 (createIndex 0 0 3%positive)
    (index 1 0 (createIndex 0 0 3%positive) sample_walked).2
  = index 1 0 (createIndex 0 0 3%positive) sample_walked.
Proof.
  apply (index_idempotent 1 0 (createIndex 0 0 3%positive) sample_walked).
  - exact reg_ok_sample_walked.
  - right. eexists. reflexivity.
Defined.

(** X4. When [parent] returns a valid index, the index it was given
    resolves to a node whose parent is alive with a row that is not
    negative; the index returned is the one [getIndexFromItem] builds for
    that parent, and it resolves to the parent in the model returned. *)
Theorem parent_valid_resolves (i : QModelIndex) (m : Model) :
  isValid (parent i m).1 = true →
  ∃ c itc w itw,
    getItemFromIndex i m = Some (c, itc) ∧ item_parent itc = Some w ∧
    heap m !! w = Some itw ∧ 0 ≤ item_row itw ∧
    (parent i m).1 = getIndexFromItem (Some w) m ∧
    getItemFromIndex (parent i m).1 (parent i m).2 = Some (w, itw).
Proof.
  unfold parent.
  destruct (getItemFromIndex i m) as [[c itc]|] eqn:Hi; [|done].
  destruct (item_parent itc) as [w|] eqn:Hback; [|done].
  unfold toStrongRef. destruct (heap m !! w) as [itw|] eqn:Hw; [|done].
  simpl. intros Hv. apply isValid_createIndex in Hv as [Hrow _].
  exists c, itc, w, itw.
  split; [done|]. split; [done|]. split; [done|]. split; [done|]. split.
  - unfold getIndexFromItem, toStrongRef. by rewrite Hw.
  - apply getItemFromIndex_createIndex; try done.
    apply registered_rawPointers_insert.
Qed.

Lemma parent_valid_resolves_witness :
  ∃ c itc w itw,
    getItemFromIndex (createIndex 0 0 3%positive) sample_walked = Some (c, itc) ∧
    item_parent itc = Some w ∧ heap sample_walked !! w = Some itw ∧ 0 ≤ item_row itw ∧
    (parent (createIndex 0 0 3%positive) sample_walked).1
      = getIndexFromItem (Some w) sample_walked ∧
    getItemFromIndex (parent (createIndex 0 0 3%positive) sample_walked).1
      (parent (createIndex 0 0 3%positive) sample_walked).2 = Some (w, itw).
Proof.
  apply (parent_valid_resolves (createIndex 0 0 3%positive) sample_walked).
  reflexivity.
Defined.

(** X5. [parent] returns [QModelIndex()] and leaves the model as it
    was whenever the index resolves to no node, the node has no parent, or
    the parent has been destroyed. *)
Theorem parent_of_root_or_unresolved (i : QModelIndex) (m : Model) :
  (∀ c itc w, getItemFromIndex i m = Some (c, itc) → item_parent itc = Some w →
     heap m !! w = None) →
  parent i m = (noIndex, m).
Proof.
  intros H. unfold parent.
  destruct (getItemFromIndex i m) as [[c itc]|] eqn:Hi; [|done].
  destruct (item_parent itc) as [w|] eqn:Hback; [|done].
  unfold toStrongRef. by rewrite (H c itc w eq_refl Hback).
Qed.

Lemma parent_of_root_or_unresolved_witness :
  parent (createIndex 0 0 1%positive) sample_walked = (noIndex, sample_walked).
Proof.
  apply (parent_of_root_or_unresolved (createIndex 0 0 1%positive) sample_walked).
  intros c itc w Hres Hback. vm_compute in Hres. injection Hres as <- <-.
  discriminate Hback.
Defined.

(** X6. When the row stored in the child is its position, the index
    [index] returns for it in column 0 is the index [getIndexFromItem]
    builds from the node alone. *)
Theorem index_agrees_with_getIndexFromItem (row : Z) (par : QModelIndex) (m : Model)
  (c : positive) (itc : TreeItem) :
  internalPointer (index row 0 par m).1 = Some c →
  heap m !! c = Some itc → item_row itc = row →
  (index row 0 par m).1 = getIndexFromItem (Some c) m.
Proof.
  intros Hptr Hc Hrow.
  rewrite (getIndexFromItem_live c itc m Hc), Hrow.
  destruct (index_cases row 0 par m) as [[_ Hi]|(_ & _ & c' & Hi & _)];
    rewrite Hi in Hptr |- *; simpl in Hptr |- *; [done|].
  by injection Hptr as ->.
Qed.

Lemma index_agrees_with_getIndexFromItem_witness :
  (index 1 0 (createIndex 0 0 3%positive) sample_walked).1
  = getIndexFromItem (Some 5%positive) sample_walked.
Proof.
  apply (index_agrees_with_getIndexFromItem 1 (createIndex 0 0 3%positive)
           sample_walked 5%positive
           (sample_item "counter" "key" [] (Some 3%positive) 1));
    reflexivity.
Defined.

(** X7. From a node to its index and back: for a live node whose row is
    not negative, the index [getIndexFromItem] builds resolves to the node
    exactly when the registry maps the node's address to itself. *)
Theorem getItemFromIndex_getIndexFromItem (w : positive) (it : TreeItem) (m : Model) :
  heap m !! w = Some it → 0 ≤ item_row it →
  (getItemFromIndex (getIndexFromItem (Some w) m) m = Some (w, it) ↔ registered w m).
Proof.
  intros Hw Hrow. rewrite (getIndexFromItem_live w it m Hw). split.
  - unfold getItemFromIndex, registered, toStrongRef; simpl.
    destruct (isValid _); [|done].
    destruct (m_rawPointers m !! w) as [weak|]; [|done].
    destruct (heap m !! weak); [|done]. by intros [= -> _].
  - intros Hreg. by apply getItemFromIndex_createIndex.
Qed.

Lemma getItemFromIndex_getIndexFromItem_witness :
  getItemFromIndex (getIndexFromItem (Some 3%positive) sample_walked) sample_walked
  = Some (3%positive, sample_item "db0" "database" [4; 5; 6]%positive (Some 1%positive) 0).
Proof.
  apply (getItemFromIndex_getIndexFromItem 3%positive
           (sample_item "db0" "database" [4; 5; 6]%positive (Some 1%positive) 0)
           sample_walked).
  - reflexivity.
  - simpl. lia.
  - reflexivity.
Defined.

(** ** Metadata *)

Lemma getItemFromIndex_setMetadata i j key value m p it :
  getItemFromIndex i m = Some (p, it) →
  getItemFromIndex j (setMetadata i key value m) =
    match getItemFromIndex j m with
    | Some (q, itq) =>
        Some (q, if decide (q = p) then item_setMetadata key value itq else itq)
    | None => None
    end.
Proof.
  intros Hi. pose proof (getItemFromIndex_Some _ _ _ _ Hi) as Hp.
  unfold setMetadata. rewrite Hi.
  unfold getItemFromIndex, toStrongRef; simpl.
  destruct (isValid j); [|done].
  destruct (internalPointer j) as [raw|]; [|done].
  destruct (m_rawPointers m !! raw) as [q|]; [|done].
  destruct (decide (q = p)) as [->|Hne].
  - rewrite lookup_insert_eq, Hp. by rewrite decide_True.
  - rewrite lookup_insert_ne by done.
    destruct (heap m !! q); [|done]. by rewrite decide_False.
Qed.

(** X8. Metadata round trip: on an index that resolves, what
    [setMetadata] stores under a key is what [getMetadata] returns for that
    key, and the values under the other keys are kept. *)
Theorem getMetadata_setMetadata (i : QModelIndex) (key : string) (value : QVariant)
  (m : Model) :
  is_Some (getItemFromIndex i m) →
  getMetadata i key (setMetadata i key value m) = value ∧
  ∀ key', key' ≠ key →
    getMetadata i key' (setMetadata i key value m) = getMetadata i key' m.
Proof.
  intros [[p it] Hi]. unfold getMetadata.
  rewrite (getItemFromIndex_setMetadata i i key value m p it Hi), Hi.
  rewrite decide_True by done. unfold metadata, item_setMetadata; simpl. split.
  - by rewrite lookup_insert_eq.
  - intros key' Hne. by rewrite lookup_insert_ne.
Qed.

Lemma getMetadata_setMetadata_witness :
  getMetadata (createIndex 0 0 3%positive) "filter"
    (setMetadata (createIndex 0 0 3%positive) "filter" (QVariant_string "user:*")
       sample_walked)
  = QVariant_string "user:*".
Proof.
  refine (proj1 (getMetadata_setMetadata (createIndex 0 0 3%positive) "filter"
                   (QVariant_string "user:*") sample_walked _)).
  eexists. reflexivity.
Defined.

(** X9. [setMetadata] touches nothing but the metadata of the node the
    index resolves to: the root list, the registry, the expanded names and
    the emitted signals are kept, and so are the data, the flags, the row
    count and the load state seen through any index, and the metadata seen
    through an index that resolves to another node. *)
Theorem setMetadata_frame (i : QModelIndex) (key : string) (value : QVariant)
  (m : Model) :
  let m' := setMetadata i key value m in
  m_treeItems m' = m_treeItems m ∧ m_rawPointers m' = m_rawPointers m ∧
  m_expanded m' = m_expanded m ∧ emitted m' = emitted m ∧
  ∀ j,
    (∀ role, data j role m' = data j role m) ∧
    flags j m' = flags j m ∧ rowCount j m' = rowCount j m ∧
    canFetchMore j m' = canFetchMore j m ∧
    (fst <$> getItemFromIndex j m ≠ fst <$> getItemFromIndex i m →
     ∀ key', getMetadata j key' m' = getMetadata j key' m).
Proof.
  intros m'. subst m'.
  destruct (getItemFromIndex i m) as [[p it]|] eqn:Hi.
  2:{ unfold setMetadata. rewrite Hi. repeat split; done. }
  split; [|split; [|split; [|split]]];
    try (unfold setMetadata; by rewrite Hi).
  assert (Hroots : m_treeItems (setMetadata i key value m) = m_treeItems m)
    by (unfold setMetadata; by rewrite Hi).
  intros j. unfold data, flags, rowCount, canFetchMore, getMetadata.
  rewrite (getItemFromIndex_setMetadata i j key value m p it Hi), Hroots.
  destruct (getItemFromIndex j m) as [[q itq]|]; [|by repeat split].
  destruct (decide (q = p)) as [->|Hne]; [|by repeat split].
  split; [by intros []|]. split; [done|]. split; [done|]. split; [done|].
  simpl. intros Hne. by exfalso.
Qed.

(** ** Tracking expanded namespaces *)

Lemma setExpanded_namespace i m p it :
  getItemFromIndex i m = Some (p, it) → getType it = "namespace"%string →
  setExpanded i m = set_expanded ({[getName it]} ∪ m_expanded m) m.
Proof. intros Hi Hns. unfold setExpanded. by rewrite Hi, Hns. Qed.

Lemma setCollapsed_namespace i m p it :
  getItemFromIndex i m = Some (p, it) → getType it = "namespace"%string →
  setCollapsed i m = set_expanded (m_expanded m ∖ {[getName it]}) m.
Proof. intros Hi Hns. unfold setCollapsed. by rewrite Hi, Hns. Qed.

(** X10. For an index that resolves to a namespace, [setExpanded]
    tracks the original name of the node and keeps the names tracked
    before; [setCollapsed] after it leaves the set that was tracked before,
    without that name; and both change nothing but the set. *)
Theorem setExpanded_then_setCollapsed (i : QModelIndex) (m : Model) (p : positive)
  (it : TreeItem) :
  getItemFromIndex i m = Some (p, it) → getType it = "namespace"%string →
  getName it ∈ m_expanded (setExpanded i m) ∧
  m_expanded m ⊆ m_expanded (setExpanded i m) ∧
  m_expanded (setCollapsed i (setExpanded i m)) = m_expanded m ∖ {[getName it]} ∧
  setCollapsed i (setExpanded i m) = setCollapsed i m.
Proof.
  intros Hi Hns.
  rewrite (setExpanded_namespace i m p it Hi Hns).
  assert (Hi' : getItemFromIndex i
                  (set_expanded ({[getName it]} ∪ m_expanded m) m) = Some (p, it)) by done.
  rewrite (setCollapsed_namespace i _ p it Hi' Hns).
  rewrite (setCollapsed_namespace i m p it Hi Hns). simpl.
  assert (Heq : ({[getName it]} ∪ m_expanded m) ∖ {[getName it]}
                = m_expanded m ∖ {[getName it]}).
  { apply set_eq. intros y.
    rewrite !elem_of_difference, elem_of_union, elem_of_singleton. tauto. }
  split; [apply elem_of_union; left; by apply elem_of_singleton|].
  split; [apply union_subseteq_r|]. split; [done|].
  unfold set_expanded; simpl. by rewrite Heq.
Qed.

Lemma setExpanded_then_setCollapsed_witness :
  m_expanded (setCollapsed (createIndex 0 0 4%positive)
                (setExpanded (createIndex 0 0 4%positive) sample_namespaces))
  = m_expanded sample_namespaces ∖ {["users"%string]}.
Proof.
  refine (proj1 (proj2 (proj2
    (setExpanded_then_setCollapsed (createIndex 0 0 4%positive) sample_namespaces
       4%positive (sample_item "users" "namespace" [7%positive] (Some 3%positive) 0)
       _ _)))).
  - reflexivity.
  - reflexivity.
Defined.

(** X11. [setExpanded] and [setCollapsed] leave the model as it was for
    an index that resolves to no node or to a node whose type is not
    "namespace". *)
Theorem setExpanded_ignores_other_types (i : QModelIndex) (m : Model) :
  (∀ p it, getItemFromIndex i m = Some (p, it) → getType it ≠ "namespace"%string) →
  setExpanded i m = m ∧ setCollapsed i m = m.
Proof.
  intros H. unfold setExpanded, setCollapsed.
  destruct (getItemFromIndex i m) as [[p it]|]; [|done].
  specialize (H p it eq_refl). apply String.eqb_neq in H. by rewrite H.
Qed.

Lemma setExpanded_ignores_other_types_witness :
  setExpanded (createIndex 0 0 3%positive) sample_walked = sample_walked.
Proof.
  refine (proj1 (setExpanded_ignores_other_types (createIndex 0 0 3%positive)
                   sample_walked _)).
  intros p it Hres. vm_compute in Hres. injection Hres as <- <-. discriminate.
Defined.

(** X12. Namespaces are tracked by name, not by node: collapsing a
    namespace removes its original name from the set even when the name was
    tracked for another namespace with the same original name. *)
Theorem setCollapsed_is_by_name (i j : QModelIndex) (m : Model) (p q : positive)
  (itp itq : TreeItem) :
  getItemFromIndex i m = Some (p, itp) → getType itp = "namespace"%string →
  getItemFromIndex j m = Some (q, itq) → getType itq = "namespace"%string →
  getName itq = getName itp →
  getName itp ∉ m_expanded (setCollapsed j (setExpanded i m)).
Proof.
  intros Hi Hnsi Hj Hnsj Hname.
  rewrite (setExpanded_namespace i m p itp Hi Hnsi).
  assert (Hj' : getItemFromIndex j
                  (set_expanded ({[getName itp]} ∪ m_expanded m) m) = Some (q, itq)) by done.
  rewrite (setCollapsed_namespace j _ q itq Hj' Hnsj). simpl. rewrite Hname.
  intros [_ Hnot]%elem_of_difference. apply Hnot. by apply elem_of_singleton.
Qed.

Lemma setCollapsed_is_by_name_witness :
  "users"%string ∉ m_expanded (setCollapsed (createIndex 0 0 7%positive)
                                  (setExpanded (createIndex 0 0 4%positive)
                                     sample_namespaces)).
Proof.
  apply (setCollapsed_is_by_name (createIndex 0 0 4%positive) (createIndex 0 0 7%positive)
           sample_namespaces 4%positive 7%positive
           (sample_item "users" "namespace" [7%positive] (Some 3%positive) 0)
           (sample_item "users" "namespace" [] (Some 4%positive) 0));
    reflexivity.
Defined.

(** ** Signals from nodes that are gone, and children unloaded *)

(** X13. A signal from a node that no longer exists is dropped: for a
    null or expired weak pointer the three handlers leave the model as it
    was. *)
Theorem signals_of_dead_items_dropped (fuel : nat) (settings : gmap string bool)
  (item : option positive) (m : Model) :
  (∀ w, item = Some w → heap m !! w = None) →
  onItemChanged item m = m ∧
  onItemChildsLoaded fuel settings item m = m ∧
  onItemChildsUnloaded item m = m.
Proof.
  intros Hdead. unfold onItemChanged, onItemChildsLoaded, onItemChildsUnloaded.
  destruct item as [w|]; [|done].
  unfold toStrongRef. by rewrite (Hdead w eq_refl).
Qed.

Lemma signals_of_dead_items_dropped_witness :
  onItemChildsLoaded 5 ∅ (Some 9%positive) sample_walked = sample_walked.
Proof.
  refine (proj1 (proj2 (signals_of_dead_items_dropped 5 ∅ (Some 9%positive)
                          sample_walked _))).
  intros w [= <-]. reflexivity.
Defined.

(** X14. [onItemChildsUnloaded] emits [beginRemoveRows] over rows 0 to
    the child count minus 1 under the node's index and then [endRemoveRows]
    exactly when the node is alive with a row that is not negative, and
    otherwise emits nothing.  It never detaches a child itself: the store,
    the root list and the registry are kept, so the row count of the node's
    index is still the one announced. *)
Theorem onItemChildsUnloaded_bracket (item : option positive) (m : Model) :
  let index := getIndexFromItem item m in
  let m' := onItemChildsUnloaded item m in
  heap m' = heap m ∧ m_treeItems m' = m_treeItems m ∧
  m_rawPointers m' = m_rawPointers m ∧ m_expanded m' = m_expanded m ∧
  rowCount index m' = rowCount index m ∧
  (isValid index = false → m' = m) ∧
  (isValid index = true →
     ∃ w it, item = Some w ∧ heap m !! w = Some it ∧
       emitted_since m m' = [beginRemoveRows index 0 (childCount it - 1); endRemoveRows]).
Proof.
  intros index m'. subst index m'. unfold onItemChildsUnloaded.
  destruct item as [w|]; [|by repeat split].
  simpl. unfold toStrongRef.
  destruct (heap m !! w) as [it|] eqn:Hw; [|by repeat split].
  destruct (isValid (createIndex (item_row it) 0 w)) eqn:Hv; simpl;
    [|by repeat split].
  repeat split; try done. intros _. exists w, it. repeat split; try done.
  apply emitted_since_app. simpl. by rewrite <- app_assoc.
Qed.

(** X15. For a live node that is not a database, with a row that is
    not negative, [onItemChildsLoaded] emits the insert bracket and nothing
    else, and leaves the tracked names, the registry and the tree alone. *)
Theorem onItemChildsLoaded_not_database (fuel : nat) (settings : gmap string bool)
  (w : positive) (it : TreeItem) (m : Model) :
  heap m !! w = Some it → 0 ≤ item_row it → getType it ≠ "database"%string →
  let index := getIndexFromItem (Some w) m in
  let m' := onItemChildsLoaded fuel settings (Some w) m in
  emitted_since m m' = [beginInsertRows index 0 (childCount it - 1); endInsertRows] ∧
  m_expanded m' = m_expanded m ∧ m_rawPointers m' = m_rawPointers m ∧
  heap m' = heap m ∧ m_treeItems m' = m_treeItems m.
Proof.
  intros Hw Hrow Hdb index m'. subst index m'.
  rewrite (getIndexFromItem_live w it m Hw).
  rewrite (onItemChildsLoaded_live fuel settings w it m Hw Hrow).
  apply String.eqb_neq in Hdb. rewrite Hdb.
  repeat split; try done.
  apply emitted_since_app. unfold insertBracket; simpl. by rewrite <- app_assoc.
Qed.

Lemma onItemChildsLoaded_not_database_witness :
  m_expanded (onItemChildsLoaded 5 ∅ (Some 1%positive)
                (set_expanded {["users"%string]} sample_walked))
  = {["users"%string]}.
Proof.
  refine (proj1 (proj2
    (onItemChildsLoaded_not_database 5 ∅ 1%positive
       (sample_item "local" "server" [3%positive] None 0)
       (set_expanded {["users"%string]} sample_walked) _ _ _))).
  - reflexivity.
  - simpl. lia.
  - discriminate.
Defined.

(** ** The registry only grows *)

Lemma reg_grows_refl m : reg_grows m m.
Proof. by split. Qed.

Lemma reg_grows_trans m1 m2 m3 : reg_grows m1 m2 → reg_grows m2 m3 → reg_grows m1 m3.
Proof. intros [Hd Ho] [Hd' Ho']. split; [by etrans|auto]. Qed.

Lemma reg_grows_eq m m' : m_rawPointers m' = m_rawPointers m → reg_grows m m'.
Proof. intros H. unfold reg_grows, reg_ok. by rewrite H. Qed.

Lemma reg_grows_rawPointers_insert c m : reg_grows m (rawPointers_insert c c m).
Proof.
  split; simpl.
  - rewrite dom_insert_L. apply union_subseteq_r.
  - intros Hok raw weak H. unfold rawPointers_insert in H; simpl in H.
    apply lookup_insert_Some in H as [[<- <-]|[_ H]]; [done|by apply Hok].
Qed.

Lemma index_reg_grows row column par m : reg_grows m (index row column par m).2.
Proof.
  destruct (index_cases row column par m) as [[_ ->]|(_ & _ & c & -> & _)]; simpl.
  - apply reg_grows_refl.
  - apply reg_grows_rawPointers_insert.
Qed.

Lemma parent_reg_grows i m : reg_grows m (parent i m).2.
Proof.
  unfold parent.
  destruct (getItemFromIndex i m) as [[? childItem]|]; [|apply reg_grows_refl].
  destruct (item_parent childItem) as [w|]; [|apply reg_grows_refl].
  destruct (toStrongRef w m) as [[? ?]|];
    [apply reg_grows_rawPointers_insert|apply reg_grows_refl].
Qed.

Lemma match_rows_reg_grows rec rows column p role text result m :
  (∀ s m0, reg_grows m0 (rec s m0).2) →
  reg_grows m (match_rows rec rows column p role text result m).2.
Proof.
  intros Hrec. revert result m.
  induction rows as [|r rows IH]; intros result m; simpl; [apply reg_grows_refl|].
  pose proof (index_reg_grows r column p m) as H1.
  destruct (index r column p m) as [idx m1]; simpl in H1.
  destruct (negb (isValid idx)).
  { eapply reg_grows_trans; [exact H1|apply IH]. }
  destruct (hasChildren idx m1).
  - pose proof (index_reg_grows 0 column idx m1) as H2.
    destruct (index 0 column idx m1) as [start' m2]; simpl in H2.
    pose proof (Hrec start' m2) as H3.
    destruct (rec start' m2) as [sub m3]; simpl in H3.
    eapply reg_grows_trans; [exact H1|]. eapply reg_grows_trans; [exact H2|].
    eapply reg_grows_trans; [exact H3|apply IH].
  - eapply reg_grows_trans; [exact H1|apply IH].
Qed.

Lemma match_reg_grows fuel start role value m :
  reg_grows m (match_ fuel start role value m).2.
Proof.
  revert start m. induction fuel as [|fuel IH]; intros start m; simpl;
    [apply reg_grows_refl|].
  pose proof (parent_reg_grows start m) as H1.
  destruct (parent start m) as [p m1]; simpl in H1.
  eapply reg_grows_trans; [exact H1|]. apply match_rows_reg_grows. intros s m0. apply IH.
Qed.

Lemma restoreOpenedNamespaces_reg_grows fuel dbIndex m :
  reg_grows m (restoreOpenedNamespaces fuel dbIndex m).
Proof.
  unfold restoreOpenedNamespaces.
  pose proof (index_reg_grows 0 0 dbIndex (set_expanded ∅ m)) as H.
  destruct (index 0 0 dbIndex (set_expanded ∅ m)) as [searchFrom m1]; simpl in H.
  eapply reg_grows_trans; [exact H|]. clear H.
  generalize (elements (m_expanded m)). intros names. revert m1.
  induction names as [|name names IH]; intros m1; simpl; [apply reg_grows_refl|].
  eapply reg_grows_trans; [|apply IH].
  unfold expandMatches.
  pose proof (match_reg_grows fuel searchFrom itemOriginalName (QVariant_bytes name) m1)
    as H.
  destruct (match_ fuel searchFrom itemOriginalName (QVariant_bytes name) m1)
    as [matches m2]; simpl in H.
  eapply reg_grows_trans; [exact H|]. apply reg_grows_eq.
  by destruct (expandAll_frame matches m2) as (_ & _ & -> & _).
Qed.

Lemma onItemChildsLoaded_reg_grows fuel settings item m :
  reg_grows m (onItemChildsLoaded fuel settings item m).
Proof.
  unfold onItemChildsLoaded. destruct item as [w|]; [|apply reg_grows_refl].
  destruct (toStrongRef w m) as [[? treeItem]|]; [|apply reg_grows_refl].
  destruct (negb _); [apply reg_grows_refl|].
  destruct (String.eqb _ _); [|by apply reg_grows_eq].
  destruct (reopenNamespacesOnReload settings); [|by apply reg_grows_eq].
  eapply reg_grows_trans; [|apply restoreOpenedNamespaces_reg_grows].
  by apply reg_grows_eq.
Qed.

(** X16. The registry keeps its shape: if every entry maps an address
    to a weak handle on the object at that address, this is still so after
    [index], [parent], [restoreOpenedNamespaces] and [onItemChildsLoaded],
    the functions that write it. *)
Theorem registry_entries_stay_diagonal (fuel : nat) (settings : gmap string bool)
  (row column : Z) (i : QModelIndex) (item : option positive) (m : Model) :
  reg_ok m →
  reg_ok (index row column i m).2 ∧ reg_ok (parent i m).2 ∧
  reg_ok (restoreOpenedNamespaces fuel i m) ∧
  reg_ok (onItemChildsLoaded fuel settings item m).
Proof.
  intros Hok. repeat split.
  - by apply index_reg_grows.
  - by apply parent_reg_grows.
  - by apply restoreOpenedNamespaces_reg_grows.
  - by apply onItemChildsLoaded_reg_grows.
Qed.

Lemma registry_entries_stay_diagonal_witness :
  reg_ok (onItemChildsLoaded 5 ∅ (Some 3%positive) sample_walked).
Proof.
  refine (proj2 (proj2 (proj2
    (registry_entries_stay_diagonal 5 ∅ 0 0 noIndex (Some 3%positive) sample_walked _)))).
  exact reg_ok_sample_walked.
Defined.

(** ** Adding and removing roots *)

(** X18. After [addRootItem] of a live node, [index] at the row that
    was the size of the root list returns the index of that node, which is
    also the index [getIndexFromItem] builds for it, and it resolves to the
    node with its new row. *)
Theorem index_after_addRootItem (p : positive) (it : TreeItem) (m : Model) :
  heap m !! p = Some it →
  let m' := addRootItem (Some p) m in
  (index (size m) 0 noIndex m').1 = createIndex (size m) 0 p ∧
  (index (size m) 0 noIndex m').1 = getIndexFromItem (Some p) m' ∧
  getItemFromIndex (index (size m) 0 noIndex m').1 (index (size m) 0 noIndex m').2
    = Some (p, setRow (size m) it).
Proof.
  intros Hp m'.
  assert (Hp' : heap m' !! p = Some (setRow (size m) it)).
  { unfold m', addRootItem; simpl. by rewrite lookup_alter_eq, Hp. }
  assert (Hroots : m_treeItems m' = m_treeItems m ++ [p]) by done.
  assert (Hrc : rowCount noIndex m' = size m + 1).
  { unfold rowCount, size. change (getItemFromIndex noIndex m') with (@None (positive * TreeItem)).
    rewrite Hroots, length_app. simpl. lia. }
  assert (Hsize : 0 ≤ size m) by (unfold size; lia).
  destruct (index_cases (size m) 0 noIndex m') as [[Hout _]|(_ & _ & c & Hi & Hc)].
  { exfalso. apply Hout. split; [lia|done]. }
  change (getItemFromIndex noIndex m') with (@None (positive * TreeItem)) in Hc.
  rewrite Hroots in Hc. unfold size in Hc. rewrite Nat2Z.id in Hc.
  rewrite lookup_app_r in Hc by lia. rewrite Nat.sub_diag in Hc.
  injection Hc as <-. rewrite Hi. cbn [fst snd].
  split; [done|]. split.
  - by rewrite (getIndexFromItem_live p _ m' Hp').
  - apply getItemFromIndex_createIndex; try done.
    apply registered_rawPointers_insert.
Qed.

Lemma index_after_addRootItem_witness :
  (index 2 0 noIndex (addRootItem (Some 6%positive) sample_model)).1
  = createIndex 2 0 6%positive.
Proof.
  refine (proj1 (index_after_addRootItem 6%positive
            (sample_item "orders" "namespace" [] (Some 3%positive) 2) sample_model _)).
  reflexivity.
Defined.

(** X19. Adding a live node that is not yet a root and removing it
    again restores the root list, and the removal is announced for the very
    row the insertion was announced for. *)
Theorem removeRootItem_after_addRootItem (p : positive) (it : TreeItem) (m : Model) :
  heap m !! p = Some it → p ∉ m_treeItems m →
  let m' := removeRootItem (Some p) (addRootItem (Some p) m) in
  m_treeItems m' = m_treeItems m ∧
  emitted_since m m' =
    [beginInsertRows noIndex (size m) (size m); endInsertRows;
     beginRemoveRows noIndex (size m) (size m); endRemoveRows].
Proof.
  intros Hp Hnotin m'. subst m'. unfold removeRootItem.
  assert (Hp' : heap (addRootItem (Some p) m) !! p = Some (setRow (size m) it)).
  { unfold addRootItem; simpl. by rewrite lookup_alter_eq, Hp. }
  rewrite Hp'. simpl. split.
  - rewrite filter_app, filter_ne_id by done.
    rewrite filter_cons_False by (intros H; by apply H).
    by rewrite filter_nil, app_nil_r.
  - apply emitted_since_app. unfold addRootItem. simpl. by rewrite <- !app_assoc.
Qed.

Lemma removeRootItem_after_addRootItem_witness :
  m_treeItems (removeRootItem (Some 6%positive) (addRootItem (Some 6%positive) sample_model))
  = m_treeItems sample_model.
Proof.
  refine (proj1 (removeRootItem_after_addRootItem 6%positive
            (sample_item "orders" "namespace" [] (Some 3%positive) 2) sample_model _ _)).
  - reflexivity.
  - simpl. intros H. apply elem_of_cons in H as [H|H]; [discriminate|].
    apply elem_of_cons in H as [H|H]; [discriminate|]. by apply elem_of_nil in H.
Defined.

Lemma sublist_filter_ne (p : positive) (l l' : list positive) :
  l `sublist_of` l' → p ∉ l → l `sublist_of` filter (λ q, q ≠ p) l'.
Proof.
  induction 1 as [|x l1 l2 _ IH|x l1 l2 _ IH]; intros Hnotin.
  - apply sublist_nil_l.
  - apply not_elem_of_cons in Hnotin as [Hne Hnotin].
    rewrite filter_cons_True by done. apply sublist_skip. by apply IH.
  - destruct (decide (x = p)) as [->|Hne].
    + rewrite filter_cons_False by (intros H; by apply H). by apply IH.
    + rewrite filter_cons_True by done. apply sublist_cons. by apply IH.
Qed.

(** X20. [removeRootItem] of a live node removes every occurrence of
    it from the root list and keeps all the other roots, each as often as it
    was there and in their order: what is left is a sublist of the root list
    without the node, and every sublist of the root list without the node is
    a sublist of what is left. *)
Theorem removeRootItem_removes_every_occurrence (p : positive) (it : TreeItem)
  (m : Model) :
  heap m !! p = Some it →
  let m' := removeRootItem (Some p) m in
  (p ∉ m_treeItems m') ∧
  (∀ q, q ≠ p → (q ∈ m_treeItems m' ↔ q ∈ m_treeItems m)) ∧
  (m_treeItems m' `sublist_of` m_treeItems m) ∧
  (∀ l, l `sublist_of` m_treeItems m → p ∉ l → l `sublist_of` m_treeItems m').
Proof.
  intros Hp m'. subst m'. unfold removeRootItem. rewrite Hp. simpl.
  split; [|split; [|split]].
  - intros [Hne _]%list_elem_of_filter. by apply Hne.
  - intros q Hq. rewrite list_elem_of_filter. tauto.
  - apply sublist_filter.
  - intros l Hl Hnotin. by apply sublist_filter_ne.
Qed.

(** A witness for X20: with the roots 2, 1, 2 and the node 1 removed, the
    list 2, 2 is a sublist of what is left, so both occurrences of 2 are
    kept. *)
Lemma removeRootItem_removes_every_occurrence_witness :
  [2; 2]%positive `sublist_of`
    m_treeItems (removeRootItem (Some 1%positive)
                   (set_treeItems [2; 1; 2]%positive sample_model)).
Proof.
  refine (proj2 (proj2 (proj2 (removeRootItem_removes_every_occurrence 1%positive
            (sample_item "local" "server" [3%positive] None 0)
            (set_treeItems [2; 1; 2]%positive sample_model) _))) [2; 2]%positive _ _).
  - reflexivity.
  - simpl. apply sublist_skip, sublist_cons, sublist_skip, sublist_nil.
  - intros H. apply elem_of_cons in H as [H|H]; [discriminate|].
    apply elem_of_cons in H as [H|H]; [discriminate|]. by apply elem_of_nil in H.
Defined.

(** X21. While the rows of the roots are their positions, the removal
    [removeRootItem] announces is that of the position of the node. *)
Theorem removeRootItem_announces_position (k : nat) (p : positive) (m : Model) :
  root_rows_ok m → m_treeItems m !! k = Some p →
  emitted_since m (removeRootItem (Some p) m) =
    [beginRemoveRows noIndex (Z.of_nat k) (Z.of_nat k); endRemoveRows].
Proof.
  intros Hok Hk. destruct (Hok k p Hk) as (it & Hp & Hrow).
  unfold removeRootItem. rewrite Hp, Hrow.
  apply emitted_since_app. simpl. by rewrite <- app_assoc.
Qed.

Lemma root_rows_ok_sample : root_rows_ok sample_model.
Proof.
  intros k p Hk. change (m_treeItems sample_model) with [1; 2]%positive in Hk.
  destruct k as [|[|k]]; simpl in Hk; [| |done]; injection Hk as <-; by eexists.
Qed.

Lemma removeRootItem_announces_position_witness :
  emitted_since sample_model (removeRootItem (Some 2%positive) sample_model) =
    [beginRemoveRows noIndex 1 1; endRemoveRows].
Proof.
  apply (removeRootItem_announces_position 1 2%positive sample_model).
  - exact root_rows_ok_sample.
  - reflexivity.
Defined.

(** X22. What [removeRootItem] leaves behind.  When the rows of the
    roots are their positions and the node is in the root list once, the
    roots before it keep a row equal to their position, and every root after
    it is at a position one less than its row: no row is renumbered. *)
Theorem removeRootItem_rows_after (l1 l2 : list positive) (p : positive) (m : Model) :
  root_rows_ok m → m_treeItems m = l1 ++ p :: l2 → p ∉ l1 → p ∉ l2 →
  let m' := removeRootItem (Some p) m in
  m_treeItems m' = l1 ++ l2 ∧
  ∀ (j : nat) q, m_treeItems m' !! j = Some q →
    ∃ itq, heap m' !! q = Some itq ∧
      item_row itq = if decide (j < length l1)%nat then Z.of_nat j else Z.of_nat j + 1.
Proof.
  intros Hok Hroots H1 H2 m'.
  assert (Hk : m_treeItems m !! length l1 = Some p).
  { rewrite Hroots, lookup_app_r by lia. by rewrite Nat.sub_diag. }
  destruct (Hok _ p Hk) as (it & Hp & _).
  assert (Hroots' : m_treeItems m' = l1 ++ l2).
  { unfold m', removeRootItem. rewrite Hp. simpl. rewrite Hroots.
    rewrite filter_app, filter_ne_id by done.
    rewrite filter_cons_False by (intros H; by apply H).
    by rewrite filter_ne_id. }
  split; [done|]. intros j q Hj.
  assert (Hheap : heap m' = heap m) by apply removeRootItem_heap.
  rewrite Hheap. rewrite Hroots' in Hj.
  case_decide as Hlt.
  - rewrite lookup_app_l in Hj by done.
    apply (Hok j q). rewrite Hroots. by rewrite lookup_app_l.
  - rewrite lookup_app_r in Hj by lia.
    destruct (Hok (S j) q) as (itq & Hq & Hrow).
    { rewrite Hroots, lookup_app_r by lia.
      replace (S j - length l1)%nat with (S (j - length l1)) by lia. done. }
    exists itq. split; [done|]. lia.
Qed.

Lemma removeRootItem_rows_after_witness :
  m_treeItems (removeRootItem (Some 1%positive) sample_model) = [2%positive].
Proof.
  refine (proj1 (removeRootItem_rows_after [] [2%positive] 1%positive sample_model
                   root_rows_ok_sample _ _ _)).
  - reflexivity.
  - apply not_elem_of_nil.
  - intros H. apply elem_of_cons in H as [H|H]; [discriminate|]. by apply elem_of_nil in H.
Defined.

(** ** More on restoring the expanded namespaces *)


Lemma hits_rows_ext sub1 sub2 h text r cs :
  (∀ c, c ∈ cs → sub1 c = sub2 c) →
  hits_rows sub1 h text r cs = hits_rows sub2 h text r cs.
Proof.
  revert r. induction cs as [|c cs IH]; intros r Hsub; simpl; [done|].
  rewrite (Hsub c) by by left. rewrite IH; [done|].
  intros c' Hc'. apply Hsub. by right.
Qed.

(** Beyond the depth of a well-formed tree, more fuel finds nothing more. *)
Lemma hits_fuel k :
  ∀ f h text p, wf_subtree (S k) h p = true → (k ≤ f)%nat →
    hits f h text p = hits k h text p.
Proof.
  induction k as [|k IH]; intros f h text p Hwf Hle.
  - apply wf_subtree_inv in Hwf as (n' & it & [= <-] & Hp & _ & Hkids).
    assert (Hnil : item_children it = []).
    { destruct (item_children it) as [|c cs] eqn:Hcs; [done|].
      destruct (Hkids c) as (? & _ & _ & ?); [by left|done]. }
    by rewrite (hits_no_children f h text p it Hp Hnil).
  - apply wf_subtree_inv in Hwf as (n' & it & [= <-] & Hp & _ & Hkids).
    destruct f as [|f]; [lia|]. simpl. rewrite Hp.
    apply hits_rows_ext. intros c Hc.
    destruct (Hkids c Hc) as (itc & _ & _ & Hwfc).
    apply IH; [done|lia].
Qed.

(** The signals of a restoration pass over a well-formed tree, name by
    name. *)
Lemma restoreOpenedNamespaces_emitted fuel dbIndex db dbit m :
  getItemFromIndex dbIndex m = Some (db, dbit) → idx_column dbIndex = 0 →
  wf_subtree (S fuel) (heap m) db = true →
  emitted (restoreOpenedNamespaces fuel dbIndex m) =
  emitted m ++ concat ((λ name, expand <$> hits fuel (heap m) name db)
                         <$> elements (m_expanded m)).
Proof.
  intros Hres Hcol Hwf.
  pose proof (getItemFromIndex_Some _ _ _ _ Hres) as Hdb.
  unfold restoreOpenedNamespaces.
  pose proof (index_first_child dbIndex db dbit (set_expanded ∅ m) Hres Hcol)
    as [[Hnil Hidx]|(c0 & Hc0 & Hidx)]; rewrite Hidx.
  - rewrite (foldl_expandMatches_emitted fuel db dbit noIndex (heap m)); auto.
  - rewrite (foldl_expandMatches_emitted fuel db dbit (createIndex 0 0 c0) (heap m));
      auto.
    right. exists c0. repeat split; auto. apply registered_rawPointers_insert.
Qed.

(** X24. The search ends: over a well-formed tree of depth [n], every
    amount of fuel from [n - 1] on makes [restoreOpenedNamespaces] emit the
    same signals, in the same order. *)
Theorem restoreOpenedNamespaces_fuel_irrelevant (fuel1 fuel2 n : nat)
  (dbIndex : QModelIndex) (db : positive) (dbit : TreeItem) (m : Model) :
  getItemFromIndex dbIndex m = Some (db, dbit) → idx_column dbIndex = 0 →
  wf_subtree n (heap m) db = true → (n ≤ S fuel1)%nat → (n ≤ S fuel2)%nat →
  emitted (restoreOpenedNamespaces fuel1 dbIndex m)
  = emitted (restoreOpenedNamespaces fuel2 dbIndex m).
Proof.
  intros Hres Hcol Hwf H1 H2.
  rewrite (restoreOpenedNamespaces_emitted fuel1 dbIndex db dbit m Hres Hcol)
    by (eapply wf_subtree_mono; [exact H1|done]).
  rewrite (restoreOpenedNamespaces_emitted fuel2 dbIndex db dbit m Hres Hcol)
    by (eapply wf_subtree_mono; [exact H2|done]).
  apply wf_subtree_inv in Hwf as Hinv. destruct Hinv as (k & _ & -> & _).
  f_equal. f_equal. apply list_fmap_ext. intros _ name _.
  rewrite (hits_fuel k fuel1) by (done || lia).
  by rewrite (hits_fuel k fuel2) by (done || lia).
Qed.

Lemma restoreOpenedNamespaces_fuel_irrelevant_witness :
  let m := set_expanded {["users"%string]} sample_walked in
  emitted (restoreOpenedNamespaces 2 (createIndex 0 0 3%positive) m)
  = emitted (restoreOpenedNamespaces 9 (createIndex 0 0 3%positive) m).
Proof.
  intros m.
  apply (restoreOpenedNamespaces_fuel_irrelevant 2 9 3 (createIndex 0 0 3%positive)
           3%positive (sample_item "db0" "database" [4; 5; 6]%positive (Some 1%positive) 0) m).
  - reflexivity.
  - reflexivity.
  - vm_compute. reflexivity.
  - lia.
  - lia.
Defined.

(** X25. An index that resolves to no node stands for the root: its row
    count is the number of roots, [index] under it returns what it returns
    under [QModelIndex()], and [restoreOpenedNamespaces] given it searches
    from the first root, as it does given [QModelIndex()]. *)
Theorem unresolved_index_is_root (fuel : nat) (row column : Z) (par : QModelIndex)
  (m : Model) :
  getItemFromIndex par m = None →
  rowCount par m = size m ∧
  index row column par m = index row column noIndex m ∧
  restoreOpenedNamespaces fuel par m = restoreOpenedNamespaces fuel noIndex m.
Proof.
  intros Hnone.
  assert (Hidx : ∀ r c m0, getItemFromIndex par m0 = None →
            index r c par m0 = index r c noIndex m0).
  { intros r c m0 H0. unfold index, hasIndex, rowCount. rewrite H0.
    by change (getItemFromIndex noIndex m0) with (@None (positive * TreeItem)). }
  split; [|split].
  - unfold rowCount. by rewrite Hnone.
  - by apply Hidx.
  - unfold restoreOpenedNamespaces. by rewrite (Hidx 0 0 (set_expanded ∅ m)).
Qed.

Lemma unresolved_index_is_root_witness :
  restoreOpenedNamespaces 5 (createIndex 0 0 3%positive) sample_model
  = restoreOpenedNamespaces 5 noIndex sample_model.
Proof.
  refine (proj2 (proj2 (unresolved_index_is_root 5 0 0 (createIndex 0 0 3%positive)
                          sample_model _))).
  reflexivity.
Defined.

(** ** Two invariants *)

(** X26. [addRootItem] keeps the row invariant of the root list when
    the node is alive and not already a root, and the list grows by one. *)
Theorem addRootItem_keeps_root_rows (p : positive) (m : Model) :
  is_Some (heap m !! p) → p ∉ m_treeItems m → root_rows_ok m →
  root_rows_ok (addRootItem (Some p) m) ∧ size (addRootItem (Some p) m) = size m + 1.
Proof.
  intros Hp Hnotin Hok. split; [by apply addRootItem_root_rows_ok|].
  unfold addRootItem, size; simpl. rewrite length_app; simpl. lia.
Qed.

Lemma addRootItem_keeps_root_rows_witness :
  root_rows_ok (addRootItem (Some 6%positive) sample_model).
Proof.
  refine (proj1 (addRootItem_keeps_root_rows 6%positive sample_model _ _
                   root_rows_ok_sample)).
  - eexists. reflexivity.
  - simpl. intros H. apply elem_of_cons in H as [H|H]; [discriminate|].
    apply elem_of_cons in H as [H|H]; [discriminate|]. by apply elem_of_nil in H.
Defined.

(** X27. The tree has one column: every valid index that [index],
    [parent] or [getIndexFromItem] hands out is in column 0. *)
Theorem valid_indexes_have_column_0 (row column : Z) (i : QModelIndex)
  (item : option positive) (m : Model) :
  (isValid (index row column i m).1 = true → idx_column (index row column i m).1 = 0) ∧
  (isValid (parent i m).1 = true → idx_column (parent i m).1 = 0) ∧
  (isValid (getIndexFromItem item m) = true → idx_column (getIndexFromItem item m) = 0).
Proof.
  split; [|split].
  - destruct (index_cases row column i m) as [[_ ->]|(_ & -> & c & -> & _)]; by simpl.
  - unfold parent. repeat case_match; by simpl.
  - unfold getIndexFromItem. repeat case_match; by simpl.
Qed.

(** X28. Reading a node through the index [index] hands out for it:
    when the child is alive, [data] gives its display name, its original
    name, its type and its icon for the four roles and the null variant for
    any other role, and [getItemType] and [getItemIcon] give its type and
    its icon. *)
Theorem data_through_index (row column : Z) (par : QModelIndex) (m : Model)
  (c : positive) (itc : TreeItem) :
  internalPointer (index row column par m).1 = Some c → heap m !! c = Some itc →
  let i := (index row column par m).1 in
  let m' := (index row column par m).2 in
  data i itemName m' = QVariant_string (getDisplayName itc) ∧
  data i itemOriginalName m' = QVariant_bytes (getName itc) ∧
  getItemType i m' = QVariant_string (getType itc) ∧
  getItemIcon i m' = QVariant_string (getIconUrl itc) ∧
  ∀ r, data i (OtherRole r) m' = QVariant_null.
Proof.
  intros Hptr Hc i m'. subst i m'.
  destruct (index_cases row column par m) as [[_ Hi]|(Hin & -> & c' & Hi & _)];
    rewrite Hi in Hptr |- *; simpl in Hptr; [done|].
  injection Hptr as ->. cbn [fst snd].
  assert (Hres : getItemFromIndex (createIndex row 0 c) (rawPointers_insert c c m)
                 = Some (c, itc)).
  { apply getItemFromIndex_createIndex; try done; try lia.
    apply registered_rawPointers_insert. }
  unfold getItemType, getItemIcon, data. rewrite Hres. by repeat split.
Qed.

Lemma data_through_index_witness :
  getItemType (index 0 0 (createIndex 0 0 1%positive) sample_walked).1
    (index 0 0 (createIndex 0 0 1%positive) sample_walked).2
  = QVariant_string "database".
Proof.
  refine (proj1 (proj2 (proj2
    (data_through_index 0 0 (createIndex 0 0 1%positive) sample_walked 3%positive
       (sample_item "db0" "database" [4; 5; 6]%positive (Some 1%positive) 0) _ _)))).
  - reflexivity.
  - reflexivity.
Defined.

End ConnectionsTree.
